(** * Crossword CSP solver (3.Optimization/crossword/generate.py)

    A shallow embedding of [CrosswordCreator] and the proofs of its
    propagation and search properties.

    Conventions of the embedding.
    - A Python [set] is the list of its elements in iteration order; every
      statement is quantified over the lists, hence holds for every order.
      Set difference and intersection are filters, [set.remove] filters the
      element out.
    - The [dict]s [self.domains] and [crossword.overlaps] are finite maps;
      a failed lookup is Python's [KeyError].
    - An assignment is a [dict] in insertion order: an association list.
    - Methods that mutate [self.domains] or the assignment are computations
      in a state-and-exception monad; read-only helpers are plain functions
      into the exception monad. *)

From Stdlib Require Import Ascii String.
From stdpp Require Import base list strings gmap fin_maps sorting.

Set Default Proof Using "Type".
Open Scope string_scope.

(** ** Data model *)

Inductive Direction := ACROSS | DOWN.

#[global] Instance Direction_eq_dec : EqDecision Direction.
Proof. solve_decision. Defined.

Module Var.

(** [Variable] of crossword.py: start cell, direction and length; equality
    and hashing are by the four fields. *)
Record t := mk { i : nat; j : nat; direction : Direction; length : nat }.

#[global] Instance eq_dec : EqDecision t.
Proof. solve_decision. Defined.

Definition to_tuple (v : t) : nat * nat * bool * nat :=
  (i v, j v, match direction v with ACROSS => true | DOWN => false end,
   length v).

Definition of_tuple (p : nat * nat * bool * nat) : t :=
  let '(a, b, d, n) := p in mk a b (if d : bool then ACROSS else DOWN) n.

#[global] Instance countable : Countable t.
Proof.
  apply (inj_countable' to_tuple of_tuple).
  intros [a b [] n]; reflexivity.
Defined.

End Var.

Abbreviation Domains := (gmap Var.t (list string)).
Abbreviation Overlaps := (gmap (Var.t * Var.t) (option (nat * nat))).
Abbreviation Assignment := (list (Var.t * string)).
Abbreviation Arc := (Var.t * Var.t)%type.

(** The fields of [Crossword] the solver reads. *)
Record Crossword := {
  variables : list Var.t;
  words : list string;
  overlaps : Overlaps
}.

(** ** Exceptions and the two monads *)

Inductive Exn := KeyError | IndexError | TypeError.

(** [OutOfFuel] is the model's own outcome for a loop cut short; it is
    shown unreachable for [ac3] and [backtrack]. *)
Inductive Res (A : Type) :=
  | Ok (a : A)
  | Raise (e : Exn)
  | OutOfFuel.

Arguments Ok {A} a.
Arguments Raise {A} e.
Arguments OutOfFuel {A}.

#[global] Instance Exn_eq_dec : EqDecision Exn.
Proof. solve_decision. Defined.

#[global] Instance Res_eq_dec `{EqDecision A} : EqDecision (Res A).
Proof. solve_decision. Defined.

#[global] Instance Res_ret : MRet Res := fun A a => Ok a.

#[global] Instance Res_bind : MBind Res := fun A B f r =>
  match r with
  | Ok a => f a
  | Raise e => Raise e
  | OutOfFuel => OutOfFuel
  end.

(** State passing with exceptions: the state at the time of the raise is
    kept, as a Python object keeps its mutations. *)
Definition M (S A : Type) : Type := S -> Res A * S.

#[global] Instance M_ret {S} : MRet (M S) := fun A a s => (Ok a, s).

#[global] Instance M_bind {S} : MBind (M S) := fun A B f m s =>
  match m s with
  | (Ok a, s') => f a s'
  | (Raise e, s') => (Raise e, s')
  | (OutOfFuel, s') => (OutOfFuel, s')
  end.

Definition get_state {S} : M S S := fun s => (Ok s, s).
Definition put_state {S} (s : S) : M S unit := fun _ => (Ok tt, s).
Definition lift {S A} (r : Res A) : M S A := fun s => (r, s).

(** ** Primitive operations of the source language *)

(** [w[k]] for a non-negative [k]. *)
Definition char_at (k : nat) (w : string) : Res ascii :=
  match String.get k w with
  | Some c => Ok c
  | None => Raise IndexError
  end.

(** [l[k]] on a list. *)
Definition item {A} (l : list A) (k : nat) : Res A :=
  match l !! k with
  | Some a => Ok a
  | None => Raise IndexError
  end.

(** [d[k]] on a dict. *)
Definition getitem `{Countable K} {V} (d : gmap K V) (k : K) : Res V :=
  match d !! k with
  | Some v => Ok v
  | None => Raise KeyError
  end.

(** [overlap[0]], [overlap[1]]: subscripting [None] is a [TypeError]. *)
Definition subscript (overlap : option (nat * nat)) : Res (nat * nat) :=
  match overlap with
  | Some p => Ok p
  | None => Raise TypeError
  end.

(** A list comprehension whose body may raise. *)
Fixpoint for_each {A B} (f : A -> Res B) (l : list A) : Res (list B) :=
  match l with
  | [] => Ok []
  | a :: l' => b ← f a; bs ← for_each f l'; Ok (b :: bs)
  end.

(** [s.remove(w)] for each [w] of [ws]. *)
Definition remove_all (ws : list string) (s : list string) : list string :=
  filter (fun w => w ∉ ws) s.

(** ** Grid model *)

(** The class [Crossword] itself (crossword.py) is not among the sources
    read here; its overlap map is a field of the record above, and its one
    method the solver calls is modelled below. *)

(** The entry of [(a, b)] is a pair of offsets. *)
Definition overlap_defined (cw : Crossword) (a b : Var.t) : bool :=
  match overlaps cw !! (a, b) with
  | Some (Some _) => true
  | _ => false
  end.

(** Modelled from the spec: [Crossword.neighbors], defined in crossword.py.
    "Slot A and slot B are neighbors iff their overlap is defined (not
    None); symmetric, derived from the Overlap Map, not separately
    stored": the slots of the grid, other than [var], whose overlap with
    [var] is defined. *)
Definition neighbors (cw : Crossword) (var : Var.t) : list Var.t :=
  filter (fun v => v ≠ var ∧ overlap_defined cw v var) (variables cw).

(** ** CrosswordCreator *)

(** [__init__]: every slot starts with its own copy of the vocabulary. *)
Definition init_domains (cw : Crossword) : Domains :=
  list_to_map ((fun var => (var, words cw)) <$> variables cw).

Definition enforce_node_consistency : M Domains unit :=
  fun domains =>
    (Ok tt,
     map_imap (fun var ws =>
       Some (remove_all
               (filter (fun word => String.length word ≠ Var.length var) ws)
               ws)) domains).

(** The first loop of [revise]: collects [words_to_remove] and the flag
    [revised]. [self.domains[y]] is read anew for each [x_word]. *)
Fixpoint revise_scan (domains : Domains) (y : Var.t) (overlap : nat * nat)
    (xs : list string) (acc : list string * bool) : Res (list string * bool) :=
  match xs with
  | [] => Ok acc
  | x_word :: rest =>
      dy ← getitem domains y;
      corresponding_y_chars ← for_each (char_at overlap.2) dy;
      c ← char_at overlap.1 x_word;
      if bool_decide (c ∈ corresponding_y_chars)
      then revise_scan domains y overlap rest acc
      else revise_scan domains y overlap rest (x_word :: acc.1, true)
  end.

Definition revise (cw : Crossword) (x y : Var.t) : M Domains bool :=
  overlap ← lift (getitem (overlaps cw) (x, y));
  match overlap with
  | None => mret false
  | Some ov =>
      domains ← get_state;
      dx ← lift (getitem domains x);
      r ← lift (revise_scan domains y ov dx ([], false));
      _ ← put_state (<[x := remove_all r.1 dx]> domains);
      mret r.2
  end.

(** The default worklist of [ac3]: [itertools.product] of the slots with
    themselves, kept when the two differ and their overlap is not [None]. *)
Fixpoint filter_arcs (cw : Crossword) (queue : list Arc) : Res (list Arc) :=
  match queue with
  | [] => Ok []
  | arc :: queue' =>
      keep ← (if bool_decide (arc.1 ≠ arc.2)
              then ov ← getitem (overlaps cw) (arc.1, arc.2);
                   Ok (bool_decide (ov ≠ None))
              else Ok false);
      rest ← filter_arcs cw queue';
      Ok (if keep : bool then arc :: rest else rest)
  end.

Definition initial_arcs (cw : Crossword) : Res (list Arc) :=
  filter_arcs cw (list_prod (variables cw) (variables cw)).

(** The arcs appended after a revision of [x] through [(x, y)]. *)
Definition requeue (cw : Crossword) (x y : Var.t) : list Arc :=
  (fun z => (z, x)) <$> filter (fun z => z ≠ y) (neighbors cw x).

(** The [while queue] loop; [fuel] bounds the number of iterations. *)
Fixpoint ac3_loop (cw : Crossword) (fuel : nat) (queue : list Arc)
    : M Domains bool :=
  match queue with
  | [] => mret true
  | arc :: queue' =>
      match fuel with
      | 0 => lift OutOfFuel
      | S fuel' =>
          let x := arc.1 in
          let y := arc.2 in
          revised ← revise cw x y;
          if revised : bool then
            domains ← get_state;
            dx ← lift (getitem domains x);
            if bool_decide (length dx = 0) then mret false
            else ac3_loop cw fuel' (queue' ++ requeue cw x y)
          else ac3_loop cw fuel' queue'
      end
  end.

(** Number of words left over all slots. *)
Definition total_size (domains : Domains) : nat :=
  map_fold (fun _ ws n => length ws + n) 0 domains.

(** Iterations that always suffice: a revision that removes a word appends
    at most one arc per slot. *)
Definition ac3_fuel (cw : Crossword) (domains : Domains) (queue : list Arc)
    : nat :=
  total_size domains * S (length (variables cw)) + length queue.

Definition ac3 (cw : Crossword) (arcs : option (list Arc)) : M Domains bool :=
  queue ← lift (match arcs with
                | None => initial_arcs cw
                | Some arcs => Ok arcs
                end);
  domains ← get_state;
  ac3_loop cw (ac3_fuel cw domains queue) queue.

(** *** Assignments: a dict in insertion order *)

Definition keys (a : Assignment) : list Var.t := a.*1.
Definition values (a : Assignment) : list string := a.*2.

Fixpoint dict_get (a : Assignment) (k : Var.t) : Res string :=
  match a with
  | [] => Raise KeyError
  | (k', w) :: a' => if decide (k' = k) then Ok w else dict_get a' k
  end.

(** [a[k] = w]: in place for a key already there, at the end otherwise. *)
Fixpoint dict_set (a : Assignment) (k : Var.t) (w : string) : Assignment :=
  match a with
  | [] => [(k, w)]
  | (k', w') :: a' =>
      if decide (k' = k) then (k', w) :: a' else (k', w') :: dict_set a' k w
  end.

(** [a.pop(k, None)]. *)
Definition dict_pop (a : Assignment) (k : Var.t) : Assignment :=
  filter (fun p => p.1 ≠ k) a.

Definition assignment_complete (cw : Crossword) (assignment : Assignment)
    : bool :=
  forallb (fun v => bool_decide (v ∈ variables cw)) (keys assignment)
  && forallb (fun v => bool_decide (v ∈ keys assignment)) (variables cw)
  && forallb (fun w => bool_decide (w ≠ "")) (values assignment).

(** The inner loop of [consistent] for one [var]: [Ok false] is the early
    [return False], [Ok true] lets the outer loop go on. *)
Fixpoint consistent_neighbors (cw : Crossword) (assignment : Assignment)
    (word : string) (var : Var.t) (ns : list Var.t) : Res bool :=
  match ns with
  | [] => Ok true
  | neighbor :: ns' =>
      overlap ← getitem (overlaps cw) (var, neighbor);
      p ← subscript overlap;
      c1 ← char_at p.1 word;
      w2 ← dict_get assignment neighbor;
      c2 ← char_at p.2 w2;
      if bool_decide (c1 ≠ c2) then Ok false
      else consistent_neighbors cw assignment word var ns'
  end.

Fixpoint consistent_items (cw : Crossword) (assignment : Assignment)
    (items : Assignment) : Res bool :=
  match items with
  | [] => Ok true
  | (var, word) :: items' =>
      ok ← consistent_neighbors cw assignment word var
             (filter (fun n => n ∈ keys assignment) (neighbors cw var));
      if ok : bool then consistent_items cw assignment items' else Ok false
  end.

Definition consistent (cw : Crossword) (assignment : Assignment) : Res bool :=
  if bool_decide (length (remove_dups (values assignment))
                  ≠ length (remove_dups (keys assignment)))
  then Ok false
  else if existsb (fun p => bool_decide (Var.length p.1 ≠ String.length p.2))
                  assignment
  then Ok false
  else consistent_items cw assignment assignment.

(** *** Heuristics *)

(** [sorted(l, key=...)] and [sorted(l, key=..., reverse=True)]: stable. *)
Fixpoint insert_by {A} (before : nat -> nat -> bool) (key : A -> nat) (x : A)
    (l : list A) : list A :=
  match l with
  | [] => [x]
  | y :: l' =>
      if before (key x) (key y) then x :: y :: l'
      else y :: insert_by before key x l'
  end.

Definition sorted {A} (key : A -> nat) (l : list A) : list A :=
  foldr (insert_by Nat.leb key) [] l.

Definition sorted_reverse {A} (key : A -> nat) (l : list A) : list A :=
  foldr (insert_by (fun a b => Nat.leb b a) key) [] l.

(** The contribution of one neighbor to [weights[word_var]]. *)
Fixpoint count_conflicts (overlap : option (nat * nat)) (word_var : string)
    (dn : list string) : Res nat :=
  match dn with
  | [] => Ok 0
  | word_neighbor :: dn' =>
      p ← subscript overlap;
      c1 ← char_at p.1 word_var;
      c2 ← char_at p.2 word_neighbor;
      n ← count_conflicts overlap word_var dn';
      Ok (if bool_decide (c1 ≠ c2) then S n else n)
  end.

Fixpoint word_weight (cw : Crossword) (domains : Domains) (var : Var.t)
    (word_var : string) (ns : list Var.t) : Res nat :=
  match ns with
  | [] => Ok 0
  | neighbor :: ns' =>
      overlap ← getitem (overlaps cw) (var, neighbor);
      dn ← getitem domains neighbor;
      n ← count_conflicts overlap word_var dn;
      m ← word_weight cw domains var word_var ns';
      Ok (n + m)
  end.

Definition order_domain_values (cw : Crossword) (domains : Domains)
    (var : Var.t) (assignment : Assignment) : Res (list string) :=
  dv ← getitem domains var;
  let ns := filter (fun n => n ∉ keys assignment) (neighbors cw var) in
  weights ← for_each (fun word_var =>
                        n ← word_weight cw domains var word_var ns;
                        Ok (word_var, n)) dv;
  Ok ((sorted snd weights).*1).

Definition select_unassigned_variable (cw : Crossword) (domains : Domains)
    (assignment : Assignment) : Res Var.t :=
  let unassigned_vars :=
    filter (fun v => v ∉ keys assignment) (variables cw) in
  n_remaining_vals ← for_each (fun var =>
                                 ws ← getitem domains var;
                                 Ok (var, length ws)) unassigned_vars;
  let sorted_n_remaining_vals := sorted snd n_remaining_vals in
  no_tie ← (if bool_decide (length sorted_n_remaining_vals = 1) then Ok true
            else e0 ← item sorted_n_remaining_vals 0;
                 e1 ← item sorted_n_remaining_vals 1;
                 Ok (bool_decide (e0.2 ≠ e1.2)));
  if no_tie : bool then
    e0 ← item sorted_n_remaining_vals 0; Ok e0.1
  else
    let n_degrees :=
      (fun var => (var, length (neighbors cw var))) <$> unassigned_vars in
    let sorted_n_degrees := sorted_reverse snd n_degrees in
    e0 ← item sorted_n_degrees 0; Ok e0.1.

(** *** Search *)

(** The solver object during search: [self.domains] and the one assignment
    dict that all levels of the recursion share. *)
Abbreviation Search := (Domains * Assignment)%type.

(** The [for value in ...] loop of [backtrack]; [rec] is the recursive
    call [self.backtrack(assignment)]. *)
Fixpoint backtrack_values (cw : Crossword)
    (rec : M Search (option Assignment)) (var : Var.t)
    (vals : list string) : M Search (option Assignment) :=
  match vals with
  | [] => mret None
  | value :: vals' =>
      s ← get_state;
      let test_assignment := dict_set s.2 var value in
      ok ← lift (consistent cw test_assignment);
      result ← (if ok : bool
                then _ ← put_state (s.1, dict_set s.2 var value); rec
                else mret None);
      match result with
      | Some r => mret (Some r)
      | None =>
          s' ← get_state;
          _ ← put_state (s'.1, dict_pop s'.2 var);
          backtrack_values cw rec var vals'
      end
  end.

(** [backtrack] with the recursion depth bounded by [fuel]. *)
Fixpoint backtrack_rec (cw : Crossword) (fuel : nat)
    : M Search (option Assignment) :=
  match fuel with
  | 0 => lift OutOfFuel
  | S fuel' =>
      s ← get_state;
      if assignment_complete cw s.2 then mret (Some s.2)
      else
        var ← lift (select_unassigned_variable cw s.1 s.2);
        vals ← lift (order_domain_values cw s.1 var s.2);
        backtrack_values cw (backtrack_rec cw fuel') var vals
  end.

(** One level of recursion per slot not yet assigned, and one more for the
    level that finds the assignment complete. *)
Definition backtrack_fuel (cw : Crossword) (assignment : Assignment) : nat :=
  S (length (filter (fun v => v ∉ keys assignment) (variables cw))).

Definition backtrack (cw : Crossword) : M Search (option Assignment) :=
  s ← get_state;
  backtrack_rec cw (backtrack_fuel cw s.2).

(** [solve]: the result of [ac3] is dropped, the search starts from the
    empty dict. *)
Definition backtrack_from (cw : Crossword) (assignment : Assignment)
    : M Domains (option Assignment) :=
  fun domains =>
    let '(r, s) := backtrack cw (domains, assignment) in (r, s.1).

Definition solve (cw : Crossword) : M Domains (option Assignment) :=
  _ ← enforce_node_consistency;
  _ ← ac3 cw None;
  backtrack_from cw [].

(** ** [letter_grid] *)

Abbreviation Letters := (list (list (option ascii))).

(** [letters[i][j] = c]. *)
Definition set_cell (letters : Letters) (i j : nat) (c : ascii)
    : Res Letters :=
  row ← item letters i;
  if bool_decide (j < length row)
  then Ok (<[i := <[j := Some c]> row]> letters)
  else Raise IndexError.

(** The cell of the [k]th letter of a slot. *)
Definition cell (variable : Var.t) (k : nat) : nat * nat :=
  (Var.i variable
   + (if decide (Var.direction variable = DOWN) then k else 0),
   Var.j variable
   + (if decide (Var.direction variable = ACROSS) then k else 0)).

(** The loop [for k in range(len(word))], over the indices [ks]. *)
Fixpoint write_word (variable : Var.t) (word : string) (ks : list nat)
    (letters : Letters) : Res Letters :=
  match ks with
  | [] => Ok letters
  | k :: ks' =>
      c ← char_at k word;
      letters' ← set_cell letters (cell variable k).1 (cell variable k).2 c;
      write_word variable word ks' letters'
  end.

Fixpoint write_items (items : Assignment) (letters : Letters)
    : Res Letters :=
  match items with
  | [] => Ok letters
  | (variable, word) :: items' =>
      letters' ← write_word variable word (seq 0 (String.length word))
                   letters;
      write_items items' letters'
  end.

(** [height] and [width] are the fields of the crossword the method
    reads. *)
Definition letter_grid (height width : nat) (assignment : Assignment)
    : Res Letters :=
  write_items assignment (replicate height (replicate width None)).

(** ** Properties of the store and of assignments *)

(** Word [w] of the first slot and word [w'] of the second carry the same
    letter at the overlap [ov]. *)
Definition agree (ov : nat * nat) (w w' : string) : Prop :=
  exists c, String.get ov.1 w = Some c /\ String.get ov.2 w' = Some c.

(** Some word left for [y] agrees with [w]. *)
Definition supported (domains : Domains) (y : Var.t) (ov : nat * nat)
    (w : string) : Prop :=
  exists dy w', domains !! y = Some dy /\ w' ∈ dy /\ agree ov w w'.

(** Every slot keeps its entry, with words removed only. *)
Definition subdomains (domains' domains : Domains) : Prop :=
  forall v,
    match domains' !! v, domains !! v with
    | Some ws', Some ws => ws' `sublist_of` ws
    | None, None => True
    | _, _ => False
    end.

(** The length invariant of the domain store. *)
Definition node_consistent (domains : Domains) : Prop :=
  forall v ws w,
    domains !! v = Some ws -> w ∈ ws -> String.length w = Var.length v.

(** The assignment returned is the shared dict as the call leaves it, it
    is complete, and it passed [consistent]. *)
Definition solved (cw : Crossword) (r : Assignment) (s' : Search) : Prop :=
  consistent cw r = Ok true /\ assignment_complete cw r = true /\ s'.2 = r.

(** The overlap map gives a crossing the same two offsets from either
    slot: the grid model's entry for an unordered pair. *)
Definition overlaps_symmetric (cw : Crossword) : Prop :=
  forall x y i j,
    overlaps cw !! (x, y) = Some (Some (i, j)) ->
    overlaps cw !! (y, x) = Some (Some (j, i)).

(** Every word left for [x] has a partner left for [y]. *)
Definition arc_ok (domains : Domains) (x y : Var.t) (ov : nat * nat) : Prop :=
  forall dx w, domains !! x = Some dx -> w ∈ dx -> supported domains y ov w.

(** Arc consistency of the store, both ways along every crossing. *)
Definition arc_consistent (cw : Crossword) (domains : Domains) : Prop :=
  forall A B i j,
    A ∈ variables cw -> B ∈ variables cw -> A <> B ->
    overlaps cw !! (A, B) = Some (Some (i, j)) ->
    (forall dA w, domains !! A = Some dA -> w ∈ dA ->
       exists dB w', domains !! B = Some dB /\ w' ∈ dB /\ agree (i, j) w w')
    /\ (forall dB w', domains !! B = Some dB -> w' ∈ dB ->
          exists dA w, domains !! A = Some dA /\ w ∈ dA /\ agree (i, j) w w').

(** The loop invariant of [ac3]: an arc is on the worklist or holds. *)
Definition pending_or_ok (cw : Crossword) (queue : list Arc)
    (domains : Domains) : Prop :=
  forall A B ov,
    A ∈ variables cw -> B ∈ variables cw -> A <> B ->
    overlaps cw !! (A, B) = Some (Some ov) ->
    (A, B) ∈ queue \/ arc_ok domains A B ov.

(** A complete consistent assignment with every word taken from the
    slot's entry in [domains]. *)
Definition solution (cw : Crossword) (domains : Domains) (a : Assignment)
    : Prop :=
  assignment_complete cw a = true
  /\ consistent cw a = Ok true
  /\ forall v w, (v, w) ∈ a -> exists ws, domains !! v = Some ws /\ w ∈ ws.

(** The arcs [ac3] puts on its worklist by itself. *)
Definition proper_arc (cw : Crossword) (arc : Arc) : Prop :=
  arc.1 ∈ variables cw /\ arc.2 ∈ variables cw /\ arc.1 <> arc.2.

(** Slots not yet assigned: the depth the recursion can still reach. *)
Definition unassigned (cw : Crossword) (a : Assignment) : nat :=
  length (filter (fun v => v ∉ keys a) (variables cw)).

(** The three conditions [consistent] checks, on a dict. *)
Definition fits (cw : Crossword) (a : Assignment) : Prop :=
  NoDup (values a)
  /\ (forall v w, (v, w) ∈ a -> String.length w = Var.length v)
  /\ (forall x wx y wy,
        (x, wx) ∈ a -> (y, wy) ∈ a -> y ∈ neighbors cw x ->
        exists ov, overlaps cw !! (x, y) = Some (Some ov) /\ agree ov wx wy).

(** Every pair of offsets lies inside the two slots. *)
Definition offsets_in_range (cw : Crossword) : Prop :=
  forall x y i j,
    overlaps cw !! (x, y) = Some (Some (i, j)) ->
    i < Var.length x /\ j < Var.length y.

(** What a successful search has added to the dict it was given. *)
Definition grown (cw : Crossword) (domains : Domains) (a r : Assignment)
    : Prop :=
  a `prefix_of` r
  /\ (NoDup (keys a) -> NoDup (keys r))
  /\ forall v w, (v, w) ∈ r ->
       (v, w) ∈ a
       \/ (v ∈ variables cw /\ (v ∉ keys a)
           /\ exists dv, domains !! v = Some dv /\ w ∈ dv).

(** The overlap map has an entry for every two distinct slots. *)
Definition overlaps_total (cw : Crossword) : Prop :=
  forall x y, x ∈ variables cw -> y ∈ variables cw -> x <> y ->
    is_Some (overlaps cw !! (x, y)).

(** The conditions on the grid under which the solver raises nothing:
    a symmetric overlap map with an entry for every two distinct slots,
    offsets inside the slots, and no slot of length zero. *)
Definition well_formed (cw : Crossword) : Prop :=
  overlaps_symmetric cw /\ offsets_in_range cw /\ overlaps_total cw
  /\ forall v, v ∈ variables cw -> 0 < Var.length v.

(** Every slot of the grid has an entry in the store. *)
Definition covers (cw : Crossword) (domains : Domains) : Prop :=
  forall v, v ∈ variables cw -> is_Some (domains !! v).

(** The dict of a search under way: slots of the grid, each once, with a
    word of its domain. *)
Definition search_state (cw : Crossword) (domains : Domains)
    (a : Assignment) : Prop :=
  NoDup (keys a)
  /\ forall v w, (v, w) ∈ a ->
       v ∈ variables cw /\ exists dv, domains !! v = Some dv /\ w ∈ dv.

(** [letters[i][j]] read back, [None] outside the array. *)
Definition get_cell (letters : Letters) (i j : nat)
    : option (option ascii) :=
  letters !! i ≫= fun row => row !! j.

(** An array of [height] rows of [width] cells. *)
Definition shape (height width : nat) (letters : Letters) : Prop :=
  length letters = height /\ Forall (fun row => length row = width) letters.

(** The letters of the slot stay inside the array. *)
Definition inside (height width : nat) (variable : Var.t) (word : string)
    : Prop :=
  forall k, k < String.length word ->
    (cell variable k).1 < height /\ (cell variable k).2 < width.

(** Two entries that pass through one cell carry the same letter there. *)
Definition agree_on_cells (a : Assignment) : Prop :=
  forall v1 w1 v2 w2 k1 k2 c1 c2,
    (v1, w1) ∈ a -> (v2, w2) ∈ a ->
    String.get k1 w1 = Some c1 -> String.get k2 w2 = Some c2 ->
    cell v1 k1 = cell v2 k2 -> c1 = c2.

(** ** A small grid

    Two rows of three cells, the middle cell of the second row blocked:
    one slot across the first row and two slots down its ends.  The
    overlap map is the one the geometry gives. *)
Module Grid23.

Definition X : Var.t := Var.mk 0 0 ACROSS 3.
Definition P : Var.t := Var.mk 0 0 DOWN 2.
Definition Q : Var.t := Var.mk 0 2 DOWN 2.

Definition overlap_map : Overlaps :=
  list_to_map
    [ ((X, P), Some (0, 0)); ((P, X), Some (0, 0));
      ((X, Q), Some (2, 0)); ((Q, X), Some (0, 2));
      ((P, Q), None); ((Q, P), None) ].

(** The grid with its slots iterated in the order [vs]. *)
Definition grid (vs : list Var.t) : Crossword :=
  {| variables := vs;
     words := ["AT"; "AS"; "ANA"; "ATA"; "ALA"];
     overlaps := overlap_map |}.

Definition cw : Crossword := grid [P; Q; X].

(** The same grid with other vocabularies: no three-letter word that fits
    the down words, and a single two-letter word for two slots. *)
Definition blocked : Crossword :=
  {| variables := [P; Q; X];
     words := ["AT"; "AS"; "BNB"];
     overlaps := overlap_map |}.

Definition scarce : Crossword :=
  {| variables := [P; Q; X];
     words := ["AT"; "ANA"];
     overlaps := overlap_map |}.

(** The domain store [solve] hands to the search. *)
Definition pruned (c : Crossword) : Domains :=
  ((_ ← enforce_node_consistency; ac3 c None) (init_domains c)).2.

(** Every slot filled, the two down slots with the same word. *)
Definition twice_AT : Assignment := [(P, "AT"); (Q, "AT"); (X, "ANA")].

(** Every slot filled, as the search fills them. *)
Definition filled : Assignment := [(X, "ANA"); (P, "AT"); (Q, "AS")].

End Grid23.

(** * Proofs *)

(** Unfolds the monad operations down to matches on results. *)
Ltac munfold :=
  repeat progress
    (unfold mbind, mret, M_bind, M_ret, Res_bind, Res_ret, lift, get_state,
       put_state in *;
     cbn beta iota zeta delta [fst snd] in * ).

(** ** The methods in direct style *)

Lemma backtrack_eq cw (s : Search) :
  backtrack cw s = backtrack_rec cw (backtrack_fuel cw s.2) s.
Proof. reflexivity. Qed.

Lemma backtrack_rec_S cw fuel (s : Search) :
  backtrack_rec cw (S fuel) s =
  if assignment_complete cw s.2 then (Ok (Some s.2), s)
  else match select_unassigned_variable cw s.1 s.2 with
       | Ok var =>
           match order_domain_values cw s.1 var s.2 with
           | Ok vals => backtrack_values cw (backtrack_rec cw fuel) var vals s
           | Raise e => (Raise e, s)
           | OutOfFuel => (OutOfFuel, s)
           end
       | Raise e => (Raise e, s)
       | OutOfFuel => (OutOfFuel, s)
       end.
Proof.
  cbn [backtrack_rec]. munfold.
  destruct (assignment_complete cw s.2); reflexivity.
Qed.

Lemma backtrack_values_cons cw rec var value vals (s : Search) :
  backtrack_values cw rec var (value :: vals) s =
  match consistent cw (dict_set s.2 var value) with
  | Ok true =>
      match rec (s.1, dict_set s.2 var value) with
      | (Ok (Some r), s') => (Ok (Some r), s')
      | (Ok None, s') =>
          backtrack_values cw rec var vals (s'.1, dict_pop s'.2 var)
      | (Raise e, s') => (Raise e, s')
      | (OutOfFuel, s') => (OutOfFuel, s')
      end
  | Ok false => backtrack_values cw rec var vals (s.1, dict_pop s.2 var)
  | Raise e => (Raise e, s)
  | OutOfFuel => (OutOfFuel, s)
  end.
Proof.
  cbn [backtrack_values]. munfold.
  destruct (consistent cw (dict_set s.2 var value)) as [[]| |]; try reflexivity.
  destruct (rec _) as [[[r|]| |] s']; reflexivity.
Qed.

Lemma revise_eq cw x y (domains : Domains) :
  revise cw x y domains =
  match overlaps cw !! (x, y) with
  | None => (Raise KeyError, domains)
  | Some None => (Ok false, domains)
  | Some (Some ov) =>
      match domains !! x with
      | None => (Raise KeyError, domains)
      | Some dx =>
          match revise_scan domains y ov dx ([], false) with
          | Ok r => (Ok r.2, <[x := remove_all r.1 dx]> domains)
          | Raise e => (Raise e, domains)
          | OutOfFuel => (OutOfFuel, domains)
          end
      end
  end.
Proof.
  unfold revise, getitem. munfold.
  destruct (overlaps cw !! (x, y)) as [[ov|]|]; try reflexivity.
  destruct (domains !! x) as [dx|]; try reflexivity.
Qed.

Lemma ac3_loop_cons cw fuel arc queue (domains : Domains) :
  ac3_loop cw (S fuel) (arc :: queue) domains =
  match revise cw arc.1 arc.2 domains with
  | (Ok true, domains') =>
      match domains' !! arc.1 with
      | Some dx =>
          if bool_decide (length dx = 0) then (Ok false, domains')
          else ac3_loop cw fuel (queue ++ requeue cw arc.1 arc.2) domains'
      | None => (Raise KeyError, domains')
      end
  | (Ok false, domains') => ac3_loop cw fuel queue domains'
  | (Raise e, domains') => (Raise e, domains')
  | (OutOfFuel, domains') => (OutOfFuel, domains')
  end.
Proof.
  cbn [ac3_loop]. unfold getitem. munfold.
  destruct (revise cw arc.1 arc.2 domains) as [[[]| |] domains'];
    try reflexivity.
  destruct (domains' !! arc.1) as [dx|]; try reflexivity.
  destruct (bool_decide _); reflexivity.
Qed.

(** ** Every step ends

    [OutOfFuel] comes from the two fuel counters only. *)

Lemma char_at_terminates k w : char_at k w <> OutOfFuel.
Proof. unfold char_at. by destruct (String.get k w). Qed.

Lemma getitem_terminates `{Countable K} {V} (d : gmap K V) k :
  getitem d k <> OutOfFuel.
Proof. unfold getitem. by destruct (d !! k). Qed.

Lemma subscript_terminates o : subscript o <> OutOfFuel.
Proof. by destruct o. Qed.

Lemma item_terminates {A} (l : list A) k : item l k <> OutOfFuel.
Proof. unfold item. by destruct (l !! k). Qed.

Lemma for_each_terminates {A B} (f : A -> Res B) l :
  (forall a, f a <> OutOfFuel) -> for_each f l <> OutOfFuel.
Proof.
  intros Hf. induction l as [|a l IH]; [done|]. simpl. munfold.
  specialize (Hf a). destruct (f a); [|done..].
  by destruct (for_each f l).
Qed.

Lemma dict_get_terminates a k : dict_get a k <> OutOfFuel.
Proof.
  induction a as [|[k' w] a IH]; [done|]. simpl. by destruct (decide (k' = k)).
Qed.

(** ** [revise] *)

Lemma char_at_Ok k w c : char_at k w = Ok c <-> String.get k w = Some c.
Proof.
  unfold char_at. destruct (String.get k w); split; intros; simplify_eq; done.
Qed.

Lemma for_each_chars k (dy : list string) chars :
  for_each (char_at k) dy = Ok chars ->
  forall c, c ∈ chars <-> exists w', w' ∈ dy /\ String.get k w' = Some c.
Proof.
  revert chars. induction dy as [|w dy IH]; intros chars H c; simpl in H.
  - simplify_eq. split; [intros ?%elem_of_nil; done |].
    intros (? & ?%elem_of_nil & _); done.
  - munfold. destruct (char_at k w) as [c0| |] eqn:Hc; try discriminate.
    destruct (for_each (char_at k) dy) as [cs| |] eqn:Hcs; try discriminate.
    simplify_eq. apply char_at_Ok in Hc.
    rewrite elem_of_cons, (IH cs eq_refl c).
    split.
    + intros [->|(w' & Hin & Hg)]; [exists w | exists w'];
        rewrite elem_of_cons; auto.
    + intros (w' & [->|Hin]%elem_of_cons & Hg);
        [left; congruence | right; eauto].
Qed.

Lemma revise_scan_spec domains y ov xs acc res :
  revise_scan domains y ov xs acc = Ok res ->
  (forall w, w ∈ xs -> supported domains y ov w \/ ~ supported domains y ov w)
  /\ (forall w, w ∈ res.1 <->
                w ∈ acc.1 \/ (w ∈ xs /\ ~ supported domains y ov w))
  /\ (res.2 = true <->
      acc.2 = true \/ exists w, w ∈ xs /\ ~ supported domains y ov w).
Proof.
  revert acc. induction xs as [|x_word xs IH]; intros acc H; simpl in H.
  - simplify_eq. split; [|split].
    + intros w ?%elem_of_nil; done.
    + intros w. split; [auto | intros [?|[?%elem_of_nil _]]; done].
    + split; [auto | intros [?|(w & ?%elem_of_nil & _)]; done].
  - unfold getitem in H. munfold.
    destruct (domains !! y) as [dy|] eqn:Hdy; try discriminate.
    destruct (for_each (char_at ov.2) dy) as [chars| |] eqn:Hchars;
      try discriminate.
    destruct (char_at ov.1 x_word) as [c| |] eqn:Hc; try discriminate.
    apply char_at_Ok in Hc.
    assert (Hsup : supported domains y ov x_word <-> c ∈ chars).
    { rewrite (for_each_chars _ _ _ Hchars c). unfold supported, agree. split.
      - intros (dy' & w' & Hdy' & Hin & c' & Hc1 & Hc2).
        simplify_eq. eauto.
      - intros (w' & Hin & Hg). eauto 8. }
    case_bool_decide as Hin.
    + apply IH in H as (Hdec & Hrem & Hflag). split; [|split].
      * intros w [->|Hw]%elem_of_cons; [left; tauto | auto].
      * intros w. rewrite Hrem, elem_of_cons. split.
        -- intros [?|[? ?]]; auto.
        -- intros [?|[[->|?] Hn]]; auto. tauto.
      * rewrite Hflag. split.
        -- intros [?|(w & ? & ?)]; auto. right. exists w.
           rewrite elem_of_cons. auto.
        -- intros [?|(w & [->|?]%elem_of_cons & Hn)]; auto; [tauto | eauto].
    + apply IH in H as (Hdec & Hrem & Hflag). simpl in *. split; [|split].
      * intros w [->|Hw]%elem_of_cons; [right; tauto | auto].
      * intros w. rewrite Hrem, !elem_of_cons. split.
        -- intros [[->|?]|[? ?]]; auto. right. split; [auto | tauto].
        -- intros [?|[[->|?] Hn]]; auto.
      * rewrite Hflag. split.
        -- intros _. right. exists x_word. rewrite elem_of_cons.
           split; [auto | tauto].
        -- auto.
Qed.

Lemma remove_all_nil (s : list string) : remove_all [] s = s.
Proof.
  unfold remove_all. induction s as [|w s IH]; [done|].
  rewrite filter_cons_True by (intros ?%elem_of_nil; done). by rewrite IH.
Qed.

Lemma elem_of_remove_all (ws s : list string) w :
  w ∈ remove_all ws s <-> w ∈ s /\ w ∉ ws.
Proof. unfold remove_all. rewrite list_elem_of_filter. tauto. Qed.

Lemma revise_inv cw x y (domains domains' : Domains) r :
  revise cw x y domains = (r, domains') ->
  match r with
  | Ok b =>
      match overlaps cw !! (x, y) with
      | Some None => b = false /\ domains' = domains
      | Some (Some ov) =>
          exists dx rem,
            domains !! x = Some dx
            /\ domains' = <[x := remove_all rem dx]> domains
            /\ (forall w, w ∈ dx ->
                  supported domains y ov w \/ ~ supported domains y ov w)
            /\ (forall w, w ∈ rem <-> w ∈ dx /\ ~ supported domains y ov w)
            /\ (b = true <-> exists w, w ∈ dx /\ ~ supported domains y ov w)
      | None => False
      end
  | _ => domains' = domains
  end.
Proof.
  rewrite revise_eq.
  destruct (overlaps cw !! (x, y)) as [[ov|]|];
    [| intros; simplify_eq; done ..].
  destruct (domains !! x) as [dx|] eqn:Hdx; [| intros; simplify_eq; done].
  destruct (revise_scan domains y ov dx ([], false)) as [res| |] eqn:Hscan;
    [| intros; simplify_eq; done ..].
  intros ?; simplify_eq.
  apply revise_scan_spec in Hscan as (Hdec & Hrem & Hflag). simpl in *.
  exists dx, res.1. split_and!; auto.
  - intros w. rewrite Hrem. split; [intros [?%elem_of_nil|?]; done | auto].
  - rewrite Hflag. split; [intros [?|?]; done | auto].
Qed.

(** Every outcome other than [True] leaves the store as it was. *)
Lemma revise_unchanged cw x y (domains domains' : Domains) r :
  revise cw x y domains = (r, domains') -> r <> Ok true -> domains' = domains.
Proof.
  intros H Hr. apply revise_inv in H. destruct r as [b| |]; [|done..].
  destruct (overlaps cw !! (x, y)) as [[ov|]|]; [| by destruct H ..].
  destruct H as (dx & rem & Hdx & -> & _ & Hrem & Hb).
  destruct b; [done|].
  assert (rem = []) as ->.
  { apply elem_of_nil_inv. intros w Hw. apply Hrem in Hw.
    assert (false = true); [|done]. apply Hb. eauto. }
  rewrite remove_all_nil. by apply insert_id.
Qed.

Lemma total_size_insert (domains : Domains) x dx dx' :
  domains !! x = Some dx ->
  total_size (<[x := dx']> domains) + length dx
  = total_size domains + length dx'.
Proof.
  intros Hx. unfold total_size.
  rewrite <- (insert_delete_eq domains).
  rewrite (map_fold_delete_L _ _ x dx domains); [| intros; lia | done].
  rewrite map_fold_insert_L; [lia | intros; lia | apply lookup_delete_eq].
Qed.

(** A revision that reports [True] has removed at least one word. *)
Lemma revise_true cw x y (domains domains' : Domains) :
  revise cw x y domains = (Ok true, domains') ->
  exists ov dx dx',
    overlaps cw !! (x, y) = Some (Some ov)
    /\ domains !! x = Some dx
    /\ domains' = <[x := dx']> domains
    /\ (forall w, w ∈ dx' <-> w ∈ dx /\ supported domains y ov w)
    /\ length dx' < length dx.
Proof.
  intros H. apply revise_inv in H.
  destruct (overlaps cw !! (x, y)) as [[ov|]|]; [| by destruct H ..].
  destruct H as (dx & rem & Hdx & -> & Hdec & Hrem & Hb).
  exists ov, dx, (remove_all rem dx). split_and!; auto.
  - intros w. rewrite elem_of_remove_all, Hrem. split.
    + intros [Hw Hn]. destruct (Hdec w Hw); tauto.
    + tauto.
  - destruct Hb as [Hb _]. destruct (Hb eq_refl) as (w & Hw & Hn).
    apply (length_filter_lt _ _ w); [done|].
    intros Hnin. apply Hnin, Hrem. auto.
Qed.

Lemma revise_true_size cw x y (domains domains' : Domains) :
  revise cw x y domains = (Ok true, domains') ->
  total_size domains' < total_size domains.
Proof.
  intros (ov & dx & dx' & _ & Hdx & -> & _ & Hlt)%revise_true.
  pose proof (total_size_insert domains x dx dx' Hdx). lia.
Qed.

Lemma revise_scan_terminates domains y ov xs acc :
  revise_scan domains y ov xs acc <> OutOfFuel.
Proof.
  revert acc. induction xs as [|w xs IH]; intros acc; [done|].
  simpl. munfold.
  pose proof (getitem_terminates domains y).
  destruct (getitem domains y) as [dy| |]; [|done..].
  pose proof (for_each_terminates (char_at ov.2) dy (char_at_terminates _)).
  destruct (for_each (char_at ov.2) dy); [|done..].
  pose proof (char_at_terminates ov.1 w).
  destruct (char_at ov.1 w); [|done..].
  case_bool_decide; apply IH.
Qed.

Lemma revise_terminates cw x y (domains : Domains) :
  (revise cw x y domains).1 <> OutOfFuel.
Proof.
  rewrite revise_eq.
  destruct (overlaps cw !! (x, y)) as [[ov|]|]; [|done..].
  destruct (domains !! x) as [dx|]; [|done].
  pose proof (revise_scan_terminates domains y ov dx ([], false)).
  by destruct (revise_scan domains y ov dx ([], false)).
Qed.

(** C9: when the overlap entry of [(x, y)] is [None], [revise x y] returns
    [False] and leaves every slot's domain as it was. *)
Theorem revise_no_overlap (cw : Crossword) (x y : Var.t) (domains : Domains) :
  overlaps cw !! (x, y) = Some None ->
  revise cw x y domains = (Ok false, domains).
Proof.
  intros Hov. rewrite revise_eq, Hov. reflexivity.
Qed.

(** ** [ac3]: termination *)

Lemma ac3_eq cw arcs (domains : Domains) :
  ac3 cw arcs domains =
  match (match arcs with None => initial_arcs cw | Some arcs => Ok arcs end)
  with
  | Ok queue => ac3_loop cw (ac3_fuel cw domains queue) queue domains
  | Raise e => (Raise e, domains)
  | OutOfFuel => (OutOfFuel, domains)
  end.
Proof.
  unfold ac3. munfold. by destruct arcs; [|destruct (initial_arcs cw)].
Qed.

Lemma filter_arcs_terminates cw queue : filter_arcs cw queue <> OutOfFuel.
Proof.
  induction queue as [|arc queue IH]; [done|]. simpl. munfold.
  case_bool_decide.
  - pose proof (getitem_terminates (overlaps cw) (arc.1, arc.2)).
    destruct (getitem (overlaps cw) (arc.1, arc.2)); [|done..].
    by destruct (filter_arcs cw queue).
  - by destruct (filter_arcs cw queue).
Qed.

Lemma length_requeue cw x y : length (requeue cw x y) <= length (variables cw).
Proof.
  unfold requeue, neighbors. rewrite length_fmap.
  etrans; [apply length_filter|]. apply length_filter.
Qed.

Lemma ac3_loop_nil cw fuel (domains : Domains) :
  ac3_loop cw fuel [] domains = (Ok true, domains).
Proof. destruct fuel; reflexivity. Qed.

Lemma ac3_loop_fuel cw fuel queue (domains : Domains) :
  ac3_fuel cw domains queue <= fuel ->
  (ac3_loop cw fuel queue domains).1 <> OutOfFuel.
Proof.
  revert queue domains.
  induction fuel as [|fuel IH]; intros queue domains Hfuel.
  - destruct queue as [|arc queue]; [done|].
    unfold ac3_fuel in Hfuel. simpl in Hfuel. lia.
  - destruct queue as [|arc queue]; [done|].
    rewrite ac3_loop_cons.
    destruct (revise cw arc.1 arc.2 domains) as [[[]| |] domains'] eqn:Hrev.
    + apply revise_true_size in Hrev.
      destruct (domains' !! arc.1) as [dx|]; [|simpl; discriminate].
      case_bool_decide; [simpl; discriminate|]. apply IH.
      unfold ac3_fuel in *. rewrite length_app.
      pose proof (length_requeue cw arc.1 arc.2). simpl in Hfuel. nia.
    + apply revise_unchanged in Hrev as ->; [|done]. apply IH.
      unfold ac3_fuel in *. simpl in Hfuel. lia.
    + simpl; discriminate.
    + pose proof (revise_terminates cw arc.1 arc.2 domains) as Ht.
      by rewrite Hrev in Ht.
Qed.

(** Once the loop has an answer, more fuel gives the same answer. *)
Lemma ac3_loop_more_fuel cw fuel fuel' queue (domains : Domains) :
  (ac3_loop cw fuel queue domains).1 <> OutOfFuel ->
  fuel <= fuel' ->
  ac3_loop cw fuel' queue domains = ac3_loop cw fuel queue domains.
Proof.
  revert fuel' queue domains.
  induction fuel as [|fuel IH]; intros fuel' queue domains Hr Hle.
  - destruct queue as [|arc queue]; [by rewrite !ac3_loop_nil |].
    exfalso. by apply Hr.
  - destruct queue as [|arc queue]; [by rewrite !ac3_loop_nil |].
    destruct fuel' as [|fuel']; [lia|].
    rewrite !ac3_loop_cons. rewrite ac3_loop_cons in Hr.
    destruct (revise cw arc.1 arc.2 domains) as [[[]| |] domains']; try done.
    + destruct (domains' !! arc.1) as [dx|]; [|done].
      case_bool_decide; [done|]. apply IH; [done | lia].
    + apply IH; [done | lia].
Qed.

Lemma ac3_ends cw arcs (domains : Domains) :
  (ac3 cw arcs domains).1 <> OutOfFuel.
Proof.
  rewrite ac3_eq. destruct arcs as [queue|].
  - by apply ac3_loop_fuel.
  - pose proof (filter_arcs_terminates cw
                  (list_prod (variables cw) (variables cw))) as Ht.
    unfold initial_arcs. destruct (filter_arcs _ _) as [queue| |]; [|done..].
    by apply ac3_loop_fuel.
Qed.

(** C6: [ac3] terminates on every store and every initial arc list.  A call
    of [revise] either reports [True] and leaves strictly fewer words in
    the store, or leaves the store as it was; in the second case the loop
    goes on with the rest of the worklist and appends nothing; so some
    number of iterations is enough for the loop to end, with a result that
    more iterations do not change. *)
Theorem ac3_terminates (cw : Crossword) (arcs : option (list Arc))
    (domains : Domains) :
  (forall x y (d d' : Domains) r,
     revise cw x y d = (r, d') ->
     (r = Ok true /\ total_size d' < total_size d)
     \/ (r <> Ok true /\ r <> OutOfFuel /\ d' = d))
  /\ (forall fuel arc queue (d d' : Domains) r,
        revise cw arc.1 arc.2 d = (r, d') -> r <> Ok true ->
        ac3_loop cw (S fuel) (arc :: queue) d
        = match r with
          | Ok _ => ac3_loop cw fuel queue d
          | _ => (r, d)
          end)
  /\ (forall queue, exists n,
        forall fuel, n <= fuel ->
          (ac3_loop cw fuel queue domains).1 <> OutOfFuel
          /\ ac3_loop cw fuel queue domains = ac3_loop cw n queue domains)
  /\ (ac3 cw arcs domains).1 <> OutOfFuel.
Proof.
  split_and!.
  - intros x y d d' r Hrev.
    destruct (decide (r = Ok true)) as [->|Hr].
    + left. split; [done|]. by apply revise_true_size in Hrev.
    + right. split_and!; [done | | by apply revise_unchanged in Hrev].
      intros ->. pose proof (revise_terminates cw x y d) as Ht.
      by rewrite Hrev in Ht.
  - intros fuel arc queue d d' r Hrev Hr. rewrite ac3_loop_cons.
    pose proof (revise_unchanged _ _ _ _ _ _ Hrev Hr) as ->.
    rewrite Hrev. by destruct r as [[]| |].
  - intros queue. exists (ac3_fuel cw domains queue). intros fuel Hle.
    pose proof (ac3_loop_fuel cw _ queue domains (Nat.le_refl _)) as Hn.
    rewrite (ac3_loop_more_fuel cw _ fuel) by done. done.
  - apply ac3_ends.
Qed.

(** ** Domains only shrink *)

Lemma subdomains_refl (domains : Domains) : subdomains domains domains.
Proof. intros v. by destruct (domains !! v). Qed.

Lemma subdomains_trans (d1 d2 d3 : Domains) :
  subdomains d1 d2 -> subdomains d2 d3 -> subdomains d1 d3.
Proof.
  intros H12 H23 v. specialize (H12 v). specialize (H23 v).
  destruct (d1 !! v), (d2 !! v), (d3 !! v); try done. by etrans.
Qed.

Lemma subdomains_insert (domains : Domains) x dx dx' :
  domains !! x = Some dx -> dx' `sublist_of` dx ->
  subdomains (<[x := dx']> domains) domains.
Proof.
  intros Hx Hsub v. destruct (decide (x = v)) as [<-|Hne].
  - by rewrite lookup_insert_eq, Hx.
  - rewrite lookup_insert_ne by done. by destruct (domains !! v).
Qed.

Lemma subdomains_node_consistent (d' d : Domains) :
  subdomains d' d -> node_consistent d -> node_consistent d'.
Proof.
  intros Hsub Hnc v ws' w Hv Hw. specialize (Hsub v). rewrite Hv in Hsub.
  destruct (d !! v) as [ws|] eqn:Hd; [|done].
  apply (Hnc v ws w Hd). by apply (sublist_subseteq _ _ Hsub).
Qed.

Lemma enforce_node_consistency_eq (domains : Domains) :
  exists domains',
    enforce_node_consistency domains = (Ok tt, domains')
    /\ forall v,
         domains' !! v
         = (fun ws =>
              remove_all
                (filter (fun w => String.length w <> Var.length v) ws) ws)
             <$> domains !! v.
Proof.
  eexists. split; [reflexivity|]. intros v. rewrite map_lookup_imap.
  by destruct (domains !! v).
Qed.

Lemma enforce_node_consistency_subdomains (domains : Domains) :
  subdomains (enforce_node_consistency domains).2 domains.
Proof.
  destruct (enforce_node_consistency_eq domains) as (d' & -> & Hd').
  intros v. simpl. rewrite Hd'. destruct (domains !! v) as [ws|]; [|done].
  apply sublist_filter.
Qed.

Lemma enforce_node_consistency_sound (domains : Domains) :
  node_consistent (enforce_node_consistency domains).2.
Proof.
  destruct (enforce_node_consistency_eq domains) as (d' & -> & Hd').
  intros v ws' w. simpl. rewrite Hd'.
  destruct (domains !! v) as [ws|]; [|done]. simpl. intros [= <-].
  intros [Hw Hn]%elem_of_remove_all.
  destruct (decide (String.length w = Var.length v)); [done|].
  exfalso. apply Hn. by apply list_elem_of_filter.
Qed.

Lemma revise_subdomains cw x y (domains : Domains) :
  subdomains (revise cw x y domains).2 domains.
Proof.
  destruct (revise cw x y domains) as [r d'] eqn:Hrev. simpl.
  apply revise_inv in Hrev. destruct r as [b| |]; subst;
    [| apply subdomains_refl ..].
  destruct (overlaps cw !! (x, y)) as [[ov|]|]; [| | done].
  - destruct Hrev as (dx & rem & Hdx & -> & _).
    apply (subdomains_insert _ _ dx); [done | apply sublist_filter].
  - destruct Hrev as [_ ->]. apply subdomains_refl.
Qed.

Lemma ac3_loop_subdomains cw fuel queue (domains : Domains) :
  subdomains (ac3_loop cw fuel queue domains).2 domains.
Proof.
  revert queue domains. induction fuel as [|fuel IH]; intros queue domains.
  - destruct queue; apply subdomains_refl.
  - destruct queue as [|arc queue]; [apply subdomains_refl|].
    rewrite ac3_loop_cons.
    pose proof (revise_subdomains cw arc.1 arc.2 domains) as Hrev.
    destruct (revise cw arc.1 arc.2 domains) as [[[]| |] d']; simpl in *;
      try done.
    + destruct (d' !! arc.1) as [dx|]; [|done].
      case_bool_decide; [done|]. eapply subdomains_trans; [apply IH | done].
    + eapply subdomains_trans; [apply IH | done].
Qed.

Lemma ac3_subdomains cw arcs (domains : Domains) :
  subdomains (ac3 cw arcs domains).2 domains.
Proof.
  rewrite ac3_eq.
  destruct (match arcs with None => _ | Some _ => _ end);
    [apply ac3_loop_subdomains | apply subdomains_refl ..].
Qed.

(** *** The search leaves [self.domains] alone *)

Lemma backtrack_values_domains cw rec var vals (s : Search) :
  (forall s0, (rec s0).2.1 = s0.1) ->
  (backtrack_values cw rec var vals s).2.1 = s.1.
Proof.
  intros Hrec. revert s. induction vals as [|value vals IH]; intros s;
    [done|].
  rewrite backtrack_values_cons.
  destruct (consistent cw (dict_set s.2 var value)) as [[]| |]; try done.
  - pose proof (Hrec (s.1, dict_set s.2 var value)) as Hr.
    destruct (rec _) as [[[r|]| |] s']; simpl in *; try done.
    by rewrite IH.
  - by rewrite IH.
Qed.

Lemma backtrack_rec_domains cw fuel (s : Search) :
  (backtrack_rec cw fuel s).2.1 = s.1.
Proof.
  revert s. induction fuel as [|fuel IH]; intros s; [done|].
  rewrite backtrack_rec_S.
  destruct (assignment_complete cw s.2); [done|].
  destruct (select_unassigned_variable cw s.1 s.2) as [var| |]; try done.
  destruct (order_domain_values cw s.1 var s.2) as [vals| |]; try done.
  by apply backtrack_values_domains.
Qed.

(** C8: [enforce_node_consistency], [revise] and [ac3] leave every slot
    its entry with words removed only, whatever their outcome, and
    [backtrack] leaves the domain store exactly as it found it. *)
Theorem domains_only_shrink (cw : Crossword) (domains : Domains) :
  subdomains (enforce_node_consistency domains).2 domains
  /\ (forall x y, subdomains (revise cw x y domains).2 domains)
  /\ (forall arcs, subdomains (ac3 cw arcs domains).2 domains)
  /\ (forall assignment,
        (backtrack cw (domains, assignment)).2.1 = domains).
Proof.
  split_and!.
  - apply enforce_node_consistency_subdomains.
  - intros. apply revise_subdomains.
  - intros. apply ac3_subdomains.
  - intros. rewrite backtrack_eq. apply backtrack_rec_domains.
Qed.

(** C5: right after [enforce_node_consistency] every word left for a slot
    has the length of the slot, and [revise], [ac3] and [backtrack] keep a
    store with that property in that state. *)
Theorem length_invariant (cw : Crossword) (domains : Domains) :
  node_consistent (enforce_node_consistency domains).2
  /\ (node_consistent domains ->
      (forall x y, node_consistent (revise cw x y domains).2)
      /\ (forall arcs, node_consistent (ac3 cw arcs domains).2)
      /\ (forall assignment,
            node_consistent (backtrack cw (domains, assignment)).2.1)).
Proof.
  split; [apply enforce_node_consistency_sound|]. intros Hnc. split_and!.
  - intros. eapply subdomains_node_consistent; [apply revise_subdomains|done].
  - intros. eapply subdomains_node_consistent; [apply ac3_subdomains|done].
  - intros. rewrite backtrack_eq, backtrack_rec_domains. done.
Qed.

(** ** [ac3]: arc consistency *)

Lemma agree_swap i j w w' : agree (i, j) w w' <-> agree (j, i) w' w.
Proof. unfold agree. simpl. split; intros (c & ? & ?); eauto. Qed.

Lemma supported_same (d d' : Domains) y ov w :
  d' !! y = d !! y -> supported d y ov w -> supported d' y ov w.
Proof. intros Heq (dy & w' & Hdy & H). exists dy, w'. by rewrite Heq. Qed.

Lemma revise_false_arc_ok cw x y ov (domains domains' : Domains) :
  revise cw x y domains = (Ok false, domains') ->
  overlaps cw !! (x, y) = Some (Some ov) ->
  arc_ok domains x y ov.
Proof.
  intros Hrev Hov. apply revise_inv in Hrev. rewrite Hov in Hrev.
  destruct Hrev as (dx & rem & Hdx & _ & Hdec & _ & Hb).
  intros dx0 w Hdx0 Hw. simplify_eq.
  destruct (Hdec w Hw) as [|Hn]; [done|].
  assert (false = true); [|done]. apply Hb. eauto.
Qed.

Lemma elem_of_requeue cw x y z :
  (z, x) ∈ requeue cw x y <->
  z ∈ variables cw /\ z <> x /\ overlap_defined cw z x = true /\ z <> y.
Proof.
  unfold requeue, neighbors. rewrite list_elem_of_fmap. split.
  - intros (z' & [= <-] & Hz).
    apply list_elem_of_filter in Hz as [Hzy Hz].
    apply list_elem_of_filter in Hz as [[Hzx Hd] Hz].
    split_and!; try done. by apply Is_true_true.
  - intros (Hz & Hzx & Hd & Hzy). exists z. split; [done|].
    apply list_elem_of_filter. split; [done|].
    apply list_elem_of_filter. split; [|done]. split; [done|].
    by apply Is_true_true.
Qed.

Section arc_consistency.
Context (cw : Crossword) (Hsym : overlaps_symmetric cw).

Lemma pending_or_ok_step x y queue (domains domains' : Domains) :
  revise cw x y domains = (Ok true, domains') ->
  pending_or_ok cw ((x, y) :: queue) domains ->
  pending_or_ok cw (queue ++ requeue cw x y) domains'.
Proof using Hsym.
  intros Hrev Hinv A B ov' HA HB HAB Hov'.
  apply revise_true in Hrev as (ov & dx & dx' & Hov & Hdx & -> & Hdx' & _).
  assert (Hother : forall v, v <> x -> <[x:=dx']> domains !! v = domains !! v).
  { intros v Hv. by rewrite lookup_insert_ne. }
  destruct (Hinv A B ov' HA HB HAB Hov') as [Hq|Hok].
  { apply elem_of_cons in Hq as [[= -> ->]|Hq].
    - (* the arc just revised *)
      right. intros dx0 w. rewrite lookup_insert_eq. intros [= <-] Hw.
      apply Hdx' in Hw as [_ Hs]. rewrite Hov in Hov'. simplify_eq.
      by apply (supported_same domains); [apply Hother|].
    - left. apply elem_of_app. by left. }
  destruct (decide (B = x)) as [->|HBx].
  - (* arcs into the revised slot *)
    destruct (decide (A = y)) as [->|HAy].
    + right. intros dy w' Hdy Hw'. rewrite Hother in Hdy by done.
      destruct ov' as [j i]. pose proof (Hsym _ _ _ _ Hov') as Hov2.
      rewrite Hov in Hov2. simplify_eq.
      destruct (Hok dy w' Hdy Hw') as (dx0 & w & Hdx0 & Hw & Hag).
      simplify_eq. exists dx', w. rewrite lookup_insert_eq.
      split_and!; [done | | done].
      apply Hdx'. split; [done|]. exists dy, w'.
      split_and!; [done..|]. by apply agree_swap.
    + left. apply elem_of_app. right. apply elem_of_requeue.
      split_and!; [done..| |done].
      unfold overlap_defined. by rewrite Hov'.
  - (* arcs into another slot *)
    right. intros dA w HdA Hw.
    apply (supported_same domains); [by apply Hother|].
    destruct (decide (A = x)) as [->|HAx].
    + rewrite lookup_insert_eq in HdA. simplify_eq.
      apply Hdx' in Hw as [Hw _]. by apply (Hok dx).
    + rewrite Hother in HdA by done. by apply (Hok dA).
Qed.

Lemma ac3_loop_arc_consistent fuel queue (domains domains' : Domains) :
  pending_or_ok cw queue domains ->
  ac3_loop cw fuel queue domains = (Ok true, domains') ->
  pending_or_ok cw [] domains'.
Proof using Hsym.
  revert queue domains.
  induction fuel as [|fuel IH]; intros queue domains Hinv.
  - destruct queue as [|arc queue]; [|done]. simpl. munfold.
    by intros [= <-].
  - destruct queue as [|[x y] queue].
    { simpl. munfold. by intros [= <-]. }
    rewrite ac3_loop_cons. simpl.
    destruct (revise cw x y domains) as [[[]| |] d1] eqn:Hrev; try done.
    + destruct (d1 !! x) as [dx|]; [|done].
      case_bool_decide; [done|]. apply IH.
      by apply (pending_or_ok_step x y queue domains).
    + assert (d1 = domains) as ->
        by (by apply (revise_unchanged _ _ _ _ _ _ Hrev)).
      apply IH. intros A B ov HA HB HAB Hov.
      destruct (Hinv A B ov HA HB HAB Hov) as [Hq|Hok]; [|by right].
      apply elem_of_cons in Hq as [[= -> ->]|Hq]; [|by left].
      right. by apply (revise_false_arc_ok cw _ _ _ _ _ Hrev).
Qed.

Lemma filter_arcs_elem_of queue res arc :
  filter_arcs cw queue = Ok res ->
  arc ∈ queue -> arc.1 <> arc.2 ->
  (exists ov, overlaps cw !! (arc.1, arc.2) = Some (Some ov)) ->
  arc ∈ res.
Proof.
  revert res. induction queue as [|arc0 queue IH]; intros res H Hin Hne Hov.
  - by apply elem_of_nil in Hin.
  - simpl in H. munfold.
    apply elem_of_cons in Hin as [<-|Hin].
    + rewrite bool_decide_eq_true_2 in H by done.
      destruct Hov as [ov Hov]. unfold getitem in H. rewrite Hov in H.
      rewrite bool_decide_eq_true_2 in H by done.
      destruct (filter_arcs cw queue) as [rest| |]; [|done..].
      simplify_eq. apply elem_of_cons. by left.
    + destruct (if bool_decide (arc0.1 <> arc0.2) then _ else _)
        as [keep| |]; [|done..].
      destruct (filter_arcs cw queue) as [rest| |]; [|done..].
      specialize (IH rest eq_refl Hin Hne Hov). simplify_eq.
      destruct keep; [apply elem_of_cons; by right | done].
Qed.

Lemma initial_arcs_pending queue (domains : Domains) :
  initial_arcs cw = Ok queue -> pending_or_ok cw queue domains.
Proof.
  intros Hq A B ov HA HB HAB Hov. left.
  apply (filter_arcs_elem_of _ _ (A, B) Hq); [|done|by exists ov].
  apply list_elem_of_In, in_prod; by apply list_elem_of_In.
Qed.

(** C3: when [ac3()] returns [True], for every two crossing slots [A], [B]
    every word left for [A] has a word left for [B] with the same letter at
    the crossing, and every word left for [B] has such a word left for
    [A]. *)
Theorem ac3_arc_consistent (domains domains' : Domains) :
  ac3 cw None domains = (Ok true, domains') ->
  arc_consistent cw domains'.
Proof using Hsym.
  rewrite ac3_eq.
  destruct (initial_arcs cw) as [queue| |] eqn:Hq; [|done..].
  intros Hloop.
  apply ac3_loop_arc_consistent in Hloop;
    [| by apply initial_arcs_pending].
  intros A B i j HA HB HAB Hov. split.
  - intros dA w HdA Hw.
    destruct (Hloop A B (i, j) HA HB HAB Hov) as [Hq'|Hok].
    { by apply elem_of_nil in Hq'. }
    apply (Hok dA w HdA Hw).
  - intros dB w' HdB Hw'.
    destruct (Hloop B A (j, i) HB HA (not_eq_sym HAB) (Hsym _ _ _ _ Hov))
      as [Hq'|Hok].
    { by apply elem_of_nil in Hq'. }
    destruct (Hok dB w' HdB Hw') as (dA & w & HdA & Hw & Hag).
    exists dA, w. split_and!; [done..|]. by apply agree_swap.
Qed.

End arc_consistency.

(** ** What [consistent] and [assignment_complete] give *)

Lemma dict_get_elem_of (a : Assignment) k w :
  dict_get a k = Ok w -> (k, w) ∈ a.
Proof.
  induction a as [|[k' w'] a IH]; [done|]. simpl.
  destruct (decide (k' = k)) as [->|].
  - intros [= ->]. apply elem_of_cons. by left.
  - intros H. apply elem_of_cons. right. by apply IH.
Qed.

Lemma consistent_neighbors_agree cw a word var ns n :
  consistent_neighbors cw a word var ns = Ok true -> n ∈ ns ->
  exists ov w2,
    overlaps cw !! (var, n) = Some (Some ov)
    /\ dict_get a n = Ok w2 /\ agree ov word w2.
Proof.
  induction ns as [|n0 ns IH]; intros H Hn.
  - by apply elem_of_nil in Hn.
  - simpl in H. unfold getitem in H. munfold.
    destruct (overlaps cw !! (var, n0)) as [[ov|]|] eqn:Hov; try done.
    simpl in H.
    destruct (char_at ov.1 word) as [c1| |] eqn:Hc1; try done.
    destruct (dict_get a n0) as [w2| |] eqn:Hw2; try done.
    destruct (char_at ov.2 w2) as [c2| |] eqn:Hc2; try done.
    case_bool_decide as Hc; [done|].
    apply elem_of_cons in Hn as [->|Hn]; [|by apply IH].
    exists ov, w2. split_and!; [done..|].
    apply char_at_Ok in Hc1, Hc2. exists c1. split; [done|].
    destruct (decide (c1 = c2)) as [->|]; [done|]. by destruct Hc.
Qed.

Lemma consistent_items_neighbors cw a items var word :
  consistent_items cw a items = Ok true -> (var, word) ∈ items ->
  consistent_neighbors cw a word var
    (filter (fun n => n ∈ keys a) (neighbors cw var)) = Ok true.
Proof.
  induction items as [|[var0 word0] items IH]; intros H Hin.
  - by apply elem_of_nil in Hin.
  - simpl in H. munfold.
    destruct (consistent_neighbors cw a word0 var0 _) as [[]| |] eqn:Hn;
      try done.
    apply elem_of_cons in Hin as [[= -> ->]|Hin]; [done | by apply IH].
Qed.

Lemma consistent_agree cw a x wx y :
  consistent cw a = Ok true -> (x, wx) ∈ a ->
  y ∈ neighbors cw x -> y ∈ keys a ->
  exists ov wy,
    overlaps cw !! (x, y) = Some (Some ov)
    /\ (y, wy) ∈ a /\ agree ov wx wy.
Proof.
  unfold consistent. intros H Hx Hy Hk.
  case_bool_decide; [done|].
  destruct (existsb _ a); [done|].
  pose proof (consistent_items_neighbors _ _ _ _ _ H Hx) as Hn.
  destruct (consistent_neighbors_agree _ _ _ _ _ y Hn)
    as (ov & wy & Hov & Hwy & Hag).
  { apply list_elem_of_filter. done. }
  exists ov, wy. split_and!; [done | by apply dict_get_elem_of | done].
Qed.

Lemma consistent_length cw a v w :
  consistent cw a = Ok true -> (v, w) ∈ a -> String.length w = Var.length v.
Proof.
  unfold consistent. intros H Hin.
  case_bool_decide; [done|].
  destruct (existsb _ a) eqn:He; [done|].
  destruct (decide (String.length w = Var.length v)) as [|Hne]; [done|].
  assert (existsb
            (fun p => bool_decide (Var.length p.1 <> String.length p.2)) a
          = true); [|congruence].
  apply existsb_exists. exists (v, w). split; [by apply list_elem_of_In|].
  apply bool_decide_eq_true_2. simpl. congruence.
Qed.

Lemma assignment_complete_keys cw a v :
  assignment_complete cw a = true -> v ∈ variables cw -> v ∈ keys a.
Proof.
  unfold assignment_complete. intros H Hv.
  apply andb_prop in H as [H _]. apply andb_prop in H as [_ H].
  rewrite forallb_forall in H. apply list_elem_of_In, H in Hv.
  by apply bool_decide_eq_true_1 in Hv.
Qed.

Lemma keys_elem_of (a : Assignment) v : v ∈ keys a -> exists w, (v, w) ∈ a.
Proof.
  unfold keys. intros ([v' w] & -> & H)%list_elem_of_fmap. by exists w.
Qed.

(** ** Pruning keeps every solution *)

Section soundness.
Context (cw : Crossword) (Hsym : overlaps_symmetric cw).

Lemma enforce_node_consistency_keeps_solution (domains : Domains) a :
  solution cw domains a ->
  solution cw (enforce_node_consistency domains).2 a.
Proof.
  intros (Hcomplete & Hcons & Hdom). split_and!; [done..|].
  intros v w Hin. destruct (Hdom v w Hin) as (ws & Hv & Hw).
  destruct (enforce_node_consistency_eq domains) as (d' & -> & Hd').
  simpl. rewrite Hd', Hv. simpl. eexists. split; [done|].
  apply elem_of_remove_all. split; [done|].
  intros [Hbad _]%list_elem_of_filter. apply Hbad.
  by apply (consistent_length cw a).
Qed.

Lemma revise_keeps_solution x y (domains domains' : Domains) r a :
  x <> y -> y ∈ variables cw ->
  revise cw x y domains = (r, domains') ->
  solution cw domains a -> solution cw domains' a.
Proof using Hsym.
  intros Hxy Hy Hrev (Hcomplete & Hcons & Hdom).
  split_and!; [done..|]. intros v w Hin.
  destruct (Hdom v w Hin) as (ws & Hv & Hw).
  apply revise_inv in Hrev. destruct r as [b| |]; [|by subst; eauto ..].
  destruct (overlaps cw !! (x, y)) as [[[i j]|]|] eqn:Hov; [| |done].
  2:{ destruct Hrev as [_ ->]. eauto. }
  destruct Hrev as (dx & rem & Hdx & -> & _ & Hrem & _).
  destruct (decide (v = x)) as [->|Hvx].
  2:{ rewrite lookup_insert_ne by done. eauto. }
  rewrite lookup_insert_eq. simplify_eq. eexists. split; [done|].
  apply elem_of_remove_all. split; [done|].
  intros [_ Hn]%Hrem. apply Hn.
  destruct (consistent_agree cw a x w y Hcons Hin)
    as (ov & wy & Hov' & Hwy & Hag).
  - apply list_elem_of_filter. split; [|done]. split; [done|].
    apply Is_true_true. unfold overlap_defined.
    by rewrite (Hsym _ _ _ _ Hov).
  - by apply (assignment_complete_keys cw).
  - rewrite Hov in Hov'. simplify_eq.
    destruct (Hdom y wy Hwy) as (dy & Hdy & Hwy').
    by exists dy, wy.
Qed.

Lemma requeue_proper x y :
  x ∈ variables cw -> Forall (proper_arc cw) (requeue cw x y).
Proof.
  intros Hx. apply Forall_forall. intros [z x'] Hin.
  assert (x' = x) as ->.
  { unfold requeue in Hin.
    by apply list_elem_of_fmap in Hin as (? & [= -> ->] & _). }
  apply elem_of_requeue in Hin as (Hz & Hzx & _). by split_and!.
Qed.

Lemma ac3_loop_keeps_solution fuel queue (domains domains' : Domains) r a :
  Forall (proper_arc cw) queue ->
  ac3_loop cw fuel queue domains = (r, domains') ->
  solution cw domains a ->
  solution cw domains' a /\ r <> Ok false.
Proof using Hsym.
  revert queue domains.
  induction fuel as [|fuel IH]; intros queue domains Hq Hloop Hsol.
  - destruct queue; simpl in Hloop; munfold; by simplify_eq.
  - destruct queue as [|[x y] queue].
    { simpl in Hloop. munfold. by simplify_eq. }
    apply Forall_cons in Hq as [(Hx & Hy & Hxy) Hq]. simpl in Hx, Hy, Hxy.
    rewrite ac3_loop_cons in Hloop. simpl in Hloop.
    destruct (revise cw x y domains) as [r1 d1] eqn:Hrev.
    pose proof (revise_keeps_solution x y _ _ _ a Hxy Hy Hrev Hsol) as Hsol1.
    destruct r1 as [[]| |]; try by simplify_eq.
    + destruct (d1 !! x) as [dx|] eqn:Hdx; [|by simplify_eq].
      case_bool_decide as Hlen.
      * exfalso. destruct Hsol1 as (Hcomplete & _ & Hdom).
        destruct (keys_elem_of a x) as [w Hw];
          [by apply (assignment_complete_keys cw)|].
        destruct (Hdom x w Hw) as (ws & Hws & Hin). simplify_eq.
        apply length_zero_iff_nil in Hlen. subst.
        by apply elem_of_nil in Hin.
      * apply (IH _ _ (Forall_app_2 _ _ _ Hq (requeue_proper x y Hx)) Hloop
                 Hsol1).
    + by apply (IH _ _ Hq Hloop).
Qed.

Lemma filter_arcs_sublist queue res :
  filter_arcs cw queue = Ok res -> res `sublist_of` queue.
Proof.
  revert res. induction queue as [|arc queue IH]; intros res H; simpl in H.
  - by simplify_eq.
  - munfold.
    destruct (if bool_decide (arc.1 <> arc.2) then _ else _)
      as [keep| |]; [|done..].
    destruct (filter_arcs cw queue) as [rest| |]; [|done..].
    specialize (IH rest eq_refl). simplify_eq.
    destruct keep; by constructor.
Qed.

Lemma filter_arcs_distinct queue res :
  filter_arcs cw queue = Ok res -> Forall (fun arc => arc.1 <> arc.2) res.
Proof.
  revert res. induction queue as [|arc queue IH]; intros res H; simpl in H.
  - by simplify_eq.
  - munfold. case_bool_decide as Hne.
    + destruct (getitem _ _); [|done..].
      destruct (filter_arcs cw queue) as [rest| |]; [|done..].
      specialize (IH rest eq_refl). simplify_eq.
      case_bool_decide; [by constructor | done].
    + destruct (filter_arcs cw queue) as [rest| |]; [|done..].
      specialize (IH rest eq_refl). by simplify_eq.
Qed.

Lemma initial_arcs_proper queue :
  initial_arcs cw = Ok queue -> Forall (proper_arc cw) queue.
Proof.
  intros H. pose proof (filter_arcs_distinct _ _ H) as Hd.
  apply filter_arcs_sublist, sublist_subseteq in H.
  apply Forall_forall. intros [x y] Hin.
  rewrite Forall_forall in Hd. specialize (Hd _ Hin).
  apply H, list_elem_of_In, in_prod_iff in Hin as [Hx Hy].
  split_and!; [by apply list_elem_of_In.. | done].
Qed.

(** C1: when [ac3()], run after [enforce_node_consistency], returns
    [False], no complete consistent assignment takes its words from the
    store as it was before the two ran; and after a call of [revise] on an
    arc of two distinct slots every word of such an assignment is still in
    the store. *)
Theorem pruning_sound :
  (forall (domains domains' : Domains) a,
     ac3 cw None (enforce_node_consistency domains).2 = (Ok false, domains') ->
     ~ solution cw domains a)
  /\ (forall x y (domains domains' : Domains) r a,
        x <> y -> y ∈ variables cw ->
        revise cw x y domains = (r, domains') ->
        solution cw domains a ->
        forall v w, (v, w) ∈ a ->
          exists ws, domains' !! v = Some ws /\ w ∈ ws).
Proof using Hsym.
  split.
  - intros domains domains' a Hac3 Hsol.
    apply enforce_node_consistency_keeps_solution in Hsol.
    rewrite ac3_eq in Hac3.
    destruct (initial_arcs cw) as [queue| |] eqn:Hq; [|done..].
    apply initial_arcs_proper in Hq.
    by destruct (ac3_loop_keeps_solution _ _ _ _ _ a Hq Hac3 Hsol).
  - intros x y domains domains' r a Hxy Hy Hrev Hsol.
    by destruct (revise_keeps_solution x y _ _ _ a Hxy Hy Hrev Hsol)
      as (_ & _ & Hdom).
Qed.

End soundness.

(** ** [select_unassigned_variable] *)

(** C4 fails on the code: in whatever order the three slots are iterated,
    with nothing assigned the two down slots tie at two words each and the
    method returns the across slot, which has three words left. *)
Theorem select_unassigned_variable_tie_takes_any_slot :
  Forall (fun vs =>
            select_unassigned_variable (Grid23.grid vs)
              (Grid23.pruned (Grid23.grid vs)) [] = Ok Grid23.X
            /\ length <$> Grid23.pruned (Grid23.grid vs) !! Grid23.X = Some 3
            /\ length <$> Grid23.pruned (Grid23.grid vs) !! Grid23.P = Some 2
            /\ length <$> Grid23.pruned (Grid23.grid vs) !! Grid23.Q = Some 2)
         (permutations [Grid23.P; Grid23.Q; Grid23.X]).
Proof.
  replace (permutations [Grid23.P; Grid23.Q; Grid23.X])
    with [[Grid23.P; Grid23.Q; Grid23.X]; [Grid23.Q; Grid23.P; Grid23.X];
          [Grid23.Q; Grid23.X; Grid23.P]; [Grid23.P; Grid23.X; Grid23.Q];
          [Grid23.X; Grid23.P; Grid23.Q]; [Grid23.X; Grid23.Q; Grid23.P]]
    by (vm_compute; reflexivity).
  repeat (constructor; [repeat split; vm_compute; reflexivity |]).
  constructor.
Qed.

(** ** Sorting and the choice of a slot *)

Lemma insert_by_perm {A} before (key : A -> nat) x l :
  insert_by before key x l ≡ₚ x :: l.
Proof.
  induction l as [|y l IH]; [done|]. simpl.
  destruct (before (key x) (key y)); [done|].
  rewrite IH. apply Permutation_swap.
Qed.

Lemma foldr_insert_by_perm {A} before (key : A -> nat) l :
  foldr (insert_by before key) [] l ≡ₚ l.
Proof.
  induction l as [|x l IH]; [done|]. simpl.
  by rewrite insert_by_perm, IH.
Qed.

Lemma item_elem_of {A} (l : list A) k a : item l k = Ok a -> a ∈ l.
Proof.
  unfold item. destruct (l !! k) eqn:Hk; [|done]. intros [= <-].
  by eapply list_elem_of_lookup_2.
Qed.

Lemma for_each_fmap {A B} (f : A -> Res B) (g : B -> A) (l : list A) r :
  (forall a b, f a = Ok b -> g b = a) ->
  for_each f l = Ok r -> g <$> r = l.
Proof.
  intros Hg. revert r. induction l as [|a l IH]; intros r H; simpl in H.
  - by simplify_eq.
  - munfold. destruct (f a) as [b| |] eqn:Hb; [|done..].
    destruct (for_each f l) as [r'| |]; [|done..].
    simplify_eq. simpl. f_equal; [by apply Hg | by apply IH].
Qed.

Lemma select_unassigned_variable_unassigned cw (domains : Domains)
    assignment var :
  select_unassigned_variable cw domains assignment = Ok var ->
  var ∈ variables cw /\ var ∉ keys assignment.
Proof.
  unfold select_unassigned_variable. munfold.
  set (unassigned_vars :=
         filter (fun v => v ∉ keys assignment) (variables cw)).
  assert (Hin : forall v, v ∈ unassigned_vars ->
                  v ∈ variables cw /\ v ∉ keys assignment).
  { intros v. unfold unassigned_vars. rewrite list_elem_of_filter. tauto. }
  destruct (for_each _ unassigned_vars) as [nrv| |] eqn:Hnrv; [|done..].
  apply (for_each_fmap _ fst) in Hnrv;
    [| intros a b; destruct (getitem domains a); [by intros [= <-] | done ..]].
  assert (Hfst : forall e, item (sorted snd nrv) 0 = Ok e ->
                   e.1 ∈ unassigned_vars).
  { intros e He%item_elem_of. rewrite <- Hnrv.
    apply list_elem_of_fmap_2.
    by rewrite <- (foldr_insert_by_perm Nat.leb snd nrv). }
  intros H. apply Hin.
  match type of H with
  | match ?c with _ => _ end = _ => destruct c as [[]| |]; try done
  end.
  - destruct (item (sorted snd nrv) 0) as [e0| |] eqn:He0; [|done..].
    simplify_eq. by apply Hfst.
  - destruct (item (sorted_reverse _ _) 0) as [e0| |] eqn:He0; [|done..].
    simplify_eq. apply item_elem_of in He0.
    unfold sorted_reverse in He0. rewrite foldr_insert_by_perm in He0.
    apply list_elem_of_fmap in He0 as (v & -> & Hv). done.
Qed.

(** ** The assignment dict *)

Lemma dict_pop_absent (a : Assignment) k : k ∉ keys a -> dict_pop a k = a.
Proof.
  unfold dict_pop, keys. induction a as [|[k' w'] a IH]; [done|].
  rewrite fmap_cons, not_elem_of_cons. intros [Hne Hnin].
  rewrite filter_cons_True by (simpl; intros ->; exact (Hne eq_refl)).
  by rewrite IH.
Qed.

Lemma dict_pop_set (a : Assignment) k w :
  k ∉ keys a -> dict_pop (dict_set a k w) k = a.
Proof.
  unfold dict_pop, keys. induction a as [|[k' w'] a IH].
  - intros _. simpl. by rewrite filter_cons_False by (simpl; tauto).
  - rewrite fmap_cons, not_elem_of_cons. intros [Hne Hnin].
    simpl in *. destruct (decide (k' = k)); [congruence|].
    rewrite filter_cons_True by (simpl; intros ->; exact (Hne eq_refl)).
  by rewrite IH.
Qed.

(** ** [backtrack] on a complete assignment *)

(** C10: on an assignment for which [assignment_complete] holds, consistent
    or not, [backtrack] returns that assignment at once and changes
    nothing. *)
Theorem backtrack_complete (cw : Crossword) (domains : Domains)
    (assignment : Assignment) :
  assignment_complete cw assignment = true ->
  backtrack cw (domains, assignment)
  = (Ok (Some assignment), (domains, assignment)).
Proof.
  intros Hc. rewrite backtrack_eq. unfold backtrack_fuel.
  rewrite backtrack_rec_S. simpl. rewrite Hc. reflexivity.
Qed.

(** ** [backtrack]: failure restores the assignment *)

Lemma backtrack_values_None cw rec var vals (s s' : Search) :
  var ∉ keys s.2 ->
  (forall s0 s0', rec s0 = (Ok None, s0') -> s0' = s0) ->
  backtrack_values cw rec var vals s = (Ok None, s') -> s' = s.
Proof.
  intros Hvar Hrec. induction vals as [|value vals IH].
  - simpl. munfold. by intros [= <-].
  - rewrite backtrack_values_cons.
    destruct (consistent cw (dict_set s.2 var value)) as [[]| |]; try done.
    + destruct (rec _) as [[[r|]| |] s0'] eqn:Hr; try done.
      apply Hrec in Hr as ->. simpl. rewrite dict_pop_set by done.
      destruct s; apply IH.
    + rewrite dict_pop_absent by done. destruct s; apply IH.
Qed.

Lemma backtrack_rec_None cw fuel (s s' : Search) :
  backtrack_rec cw fuel s = (Ok None, s') -> s' = s.
Proof.
  revert s s'. induction fuel as [|fuel IH]; intros s s'; [done|].
  rewrite backtrack_rec_S.
  destruct (assignment_complete cw s.2); [done|].
  destruct (select_unassigned_variable cw s.1 s.2) as [var| |] eqn:Hsel;
    try done.
  destruct (order_domain_values cw s.1 var s.2) as [vals| |]; try done.
  apply select_unassigned_variable_unassigned in Hsel as [_ Hvar].
  apply backtrack_values_None; [done | apply IH].
Qed.

(** C7: when [backtrack] returns [None], the assignment (and the domain
    store) is as it was before the call. *)
Theorem backtrack_failure_restores (cw : Crossword) (domains : Domains)
    (assignment : Assignment) (s' : Search) :
  backtrack cw (domains, assignment) = (Ok None, s') ->
  s' = (domains, assignment).
Proof. rewrite backtrack_eq. apply backtrack_rec_None. Qed.

(** ** [backtrack]: what a returned assignment satisfies *)

Lemma backtrack_values_Some cw rec var vals (s s' : Search) r :
  (forall s0 s0' r0,
     rec s0 = (Ok (Some r0), s0') -> consistent cw s0.2 = Ok true ->
     solved cw r0 s0') ->
  backtrack_values cw rec var vals s = (Ok (Some r), s') ->
  solved cw r s'.
Proof.
  intros Hrec. revert s. induction vals as [|value vals IH]; intros s.
  - simpl. munfold. done.
  - rewrite backtrack_values_cons.
    destruct (consistent cw (dict_set s.2 var value)) as [[]| |] eqn:Hc;
      try done.
    + destruct (rec _) as [[[r0|]| |] s0'] eqn:Hr; try done.
      * intros [= <- <-]. by apply Hrec in Hr.
      * apply IH.
    + apply IH.
Qed.

Lemma backtrack_rec_Some cw fuel (s s' : Search) r :
  backtrack_rec cw fuel s = (Ok (Some r), s') ->
  assignment_complete cw s.2 = false \/ consistent cw s.2 = Ok true ->
  solved cw r s'.
Proof.
  revert s s' r. induction fuel as [|fuel IH]; intros s s' r; [done|].
  rewrite backtrack_rec_S.
  destruct (assignment_complete cw s.2) eqn:Hcomplete.
  - intros [= <- <-] [?|?]; done.
  - intros H _.
    destruct (select_unassigned_variable cw s.1 s.2) as [var| |]; try done.
    destruct (order_domain_values cw s.1 var s.2) as [vals| |]; try done.
    apply backtrack_values_Some in H; [done|].
    intros s0 s0' r0 Hr Hc. apply (IH _ _ _ Hr). by right.
Qed.

Lemma consistent_empty cw : consistent cw [] = Ok true.
Proof. reflexivity. Qed.

Lemma backtrack_from_eq cw assignment (domains : Domains) :
  backtrack_from cw assignment domains
  = ((backtrack cw (domains, assignment)).1,
     (backtrack cw (domains, assignment)).2.1).
Proof. unfold backtrack_from. by destruct (backtrack cw _). Qed.

Lemma solve_eq cw (domains : Domains) :
  solve cw domains =
  match ac3 cw None (enforce_node_consistency domains).2 with
  | (Ok _, domains') => backtrack_from cw [] domains'
  | (Raise e, domains') => (Raise e, domains')
  | (OutOfFuel, domains') => (OutOfFuel, domains')
  end.
Proof.
  unfold solve, enforce_node_consistency. munfold. simpl.
  by destruct (ac3 cw None _) as [[]].
Qed.

(** C2, amended: when [backtrack] is called on an assignment that is not
    complete, or that is consistent, and returns an assignment, that
    assignment is consistent and complete. *)
Theorem backtrack_result_solved (cw : Crossword) (domains : Domains)
    (assignment r : Assignment) (s' : Search) :
  backtrack cw (domains, assignment) = (Ok (Some r), s') ->
  assignment_complete cw assignment = false
  \/ consistent cw assignment = Ok true ->
  consistent cw r = Ok true /\ assignment_complete cw r = true.
Proof.
  rewrite backtrack_eq. intros H Hpre.
  by destruct (backtrack_rec_Some _ _ _ _ _ H Hpre) as (? & ? & _).
Qed.

Lemma solve_result_solved (cw : Crossword) (domains domains' : Domains) r :
  solve cw domains = (Ok (Some r), domains') ->
  consistent cw r = Ok true /\ assignment_complete cw r = true.
Proof.
  rewrite solve_eq.
  destruct (ac3 cw None _) as [[b| |] d1]; try done.
  rewrite backtrack_from_eq.
  destruct (backtrack cw (d1, [])) as [res s1] eqn:Hb. simpl.
  intros [= -> <-]. rewrite backtrack_eq in Hb.
  destruct (backtrack_rec_Some _ _ _ _ _ Hb) as (? & ? & _); [|done].
  right. apply consistent_empty.
Qed.

(** C2 as stated fails: a complete assignment that uses a word twice is
    returned as it is. *)
Lemma backtrack_result_unchecked :
  ~ (forall (cw : Crossword) (s s' : Search) (r : Assignment),
       backtrack cw s = (Ok (Some r), s') ->
       consistent cw r = Ok true /\ assignment_complete cw r = true).
Proof.
  intros H.
  destruct (H Grid23.cw (Grid23.pruned Grid23.cw, Grid23.twice_AT)
              (Grid23.pruned Grid23.cw, Grid23.twice_AT) Grid23.twice_AT)
    as [Hc _].
  - vm_compute. reflexivity.
  - vm_compute in Hc. discriminate.
Qed.

(** ** [backtrack]: termination *)

(** Proves [e <> OutOfFuel] for a chain of binds whose steps are primitive
    operations, loops over them, or calls covered by a hypothesis. *)
Ltac ends :=
  munfold;
  repeat match goal with
    | |- (match ?c with _ => _ end) <> OutOfFuel =>
        let H := fresh in
        assert (H : c <> OutOfFuel) by ends;
        destruct c; [clear H | done ..]; munfold
    | |- (if ?b then _ else _) <> OutOfFuel => destruct b
    end;
  try done; try ends_atom
with ends_atom :=
  first
    [ assumption
    | apply char_at_terminates
    | apply getitem_terminates
    | apply subscript_terminates
    | apply item_terminates
    | apply dict_get_terminates
    | match goal with H : forall _, _ <> OutOfFuel |- _ => apply H end
    | apply for_each_terminates; intros; ends ].

Lemma consistent_neighbors_terminates cw a word var ns :
  consistent_neighbors cw a word var ns <> OutOfFuel.
Proof. induction ns as [|n ns IH]; [done|]. simpl. ends. Qed.

Lemma consistent_items_terminates cw a items :
  consistent_items cw a items <> OutOfFuel.
Proof.
  pose proof (consistent_neighbors_terminates cw a) as Hn.
  induction items as [|[var word] items IH]; [done|]. simpl. munfold.
  specialize (Hn word var (filter (fun n => n ∈ keys a) (neighbors cw var))).
  destruct (consistent_neighbors _ _ _ _ _) as [[]| |]; done.
Qed.

Lemma consistent_terminates cw a : consistent cw a <> OutOfFuel.
Proof.
  unfold consistent. case_bool_decide; [done|].
  destruct (existsb _ a); [done|]. apply consistent_items_terminates.
Qed.

Lemma count_conflicts_terminates overlap word_var dn :
  count_conflicts overlap word_var dn <> OutOfFuel.
Proof. induction dn as [|w dn IH]; [done|]. simpl. ends. Qed.

Lemma word_weight_terminates cw (domains : Domains) var word_var ns :
  word_weight cw domains var word_var ns <> OutOfFuel.
Proof.
  induction ns as [|n ns IH]; [done|]. simpl. munfold.
  pose proof (getitem_terminates (overlaps cw) (var, n)).
  destruct (getitem (overlaps cw) (var, n)) as [ov| |]; [|done..].
  pose proof (getitem_terminates domains n).
  destruct (getitem domains n) as [dn| |]; [|done..].
  pose proof (count_conflicts_terminates ov word_var dn).
  destruct (count_conflicts ov word_var dn); [|done..].
  by destruct (word_weight cw domains var word_var ns).
Qed.

Lemma order_domain_values_terminates cw (domains : Domains) var a :
  order_domain_values cw domains var a <> OutOfFuel.
Proof.
  unfold order_domain_values. munfold.
  pose proof (getitem_terminates domains var).
  destruct (getitem domains var) as [dv| |]; [|done..].
  match goal with
  | |- match for_each ?f ?l with _ => _ end <> _ =>
      assert (for_each f l <> OutOfFuel); [|by destruct (for_each f l)]
  end.
  apply for_each_terminates. intros w.
  pose proof (word_weight_terminates cw domains var w
    (filter (fun n => n ∉ keys a) (neighbors cw var))).
  by destruct (word_weight _ _ _ _ _).
Qed.

Lemma select_unassigned_variable_terminates cw (domains : Domains) a :
  select_unassigned_variable cw domains a <> OutOfFuel.
Proof. unfold select_unassigned_variable. ends. Qed.

Lemma keys_dict_set (a : Assignment) k w :
  k ∉ keys a -> keys (dict_set a k w) = (keys a ++ [k])%list.
Proof.
  unfold keys. induction a as [|[k' w'] a IH]; [done|].
  rewrite fmap_cons, not_elem_of_cons. intros [Hne Hnin]. simpl in *.
  destruct (decide (k' = k)) as [->|]; [done|].
  rewrite fmap_cons. simpl. f_equal. by apply IH.
Qed.

Lemma unassigned_dict_set cw (a : Assignment) k w :
  k ∈ variables cw -> k ∉ keys a ->
  unassigned cw (dict_set a k w) < unassigned cw a.
Proof.
  intros Hk Hnin. unfold unassigned. rewrite keys_dict_set by done.
  rewrite (list_filter_iff _ (fun v => v <> k /\ v ∉ keys a)).
  2:{ intros v. rewrite not_elem_of_app, not_elem_of_cons, elem_of_nil.
      tauto. }
  rewrite <- list_filter_filter.
  apply (length_filter_lt _ _ k); [|by intros []].
  by apply list_elem_of_filter.
Qed.

Lemma backtrack_values_terminates cw rec var vals (s : Search) :
  var ∈ variables cw -> var ∉ keys s.2 ->
  (forall s0, unassigned cw s0.2 < unassigned cw s.2 ->
     (rec s0).1 <> OutOfFuel) ->
  (forall s0 s0', rec s0 = (Ok None, s0') -> s0' = s0) ->
  (backtrack_values cw rec var vals s).1 <> OutOfFuel.
Proof.
  intros Hvar Hnin Hrec Hnone. induction vals as [|value vals IH]; [done|].
  rewrite backtrack_values_cons.
  pose proof (consistent_terminates cw (dict_set s.2 var value)).
  destruct (consistent cw (dict_set s.2 var value)) as [[]| |]; try done.
  - pose proof (Hrec (s.1, dict_set s.2 var value)
                  (unassigned_dict_set cw s.2 var value Hvar Hnin)) as Hr.
    destruct (rec _) as [[[r|]| |] s0'] eqn:Hcall; try done.
    apply Hnone in Hcall as ->. simpl. rewrite dict_pop_set by done.
    by destruct s.
  - rewrite dict_pop_absent by done. by destruct s.
Qed.

Lemma backtrack_rec_terminates cw fuel (s : Search) :
  unassigned cw s.2 < fuel -> (backtrack_rec cw fuel s).1 <> OutOfFuel.
Proof.
  revert s. induction fuel as [|fuel IH]; intros s Hfuel; [lia|].
  rewrite backtrack_rec_S.
  destruct (assignment_complete cw s.2); [done|].
  pose proof (select_unassigned_variable_terminates cw s.1 s.2).
  destruct (select_unassigned_variable cw s.1 s.2) as [var| |] eqn:Hsel;
    try done.
  pose proof (order_domain_values_terminates cw s.1 var s.2).
  destruct (order_domain_values cw s.1 var s.2) as [vals| |]; try done.
  apply select_unassigned_variable_unassigned in Hsel as [Hvar Hnin].
  apply backtrack_values_terminates; [done..| |].
  - intros s0 Hlt. apply IH. lia.
  - apply backtrack_rec_None.
Qed.

(** The fuel of [backtrack] is never used up. *)
Lemma backtrack_terminates cw (s : Search) :
  (backtrack cw s).1 <> OutOfFuel.
Proof.
  rewrite backtrack_eq. apply backtrack_rec_terminates.
  unfold backtrack_fuel, unassigned. lia.
Qed.

(** [solve] always comes to an end: with an assignment, with [None], or
    with an exception of the source language. *)
Lemma solve_terminates cw (domains : Domains) :
  (solve cw domains).1 <> OutOfFuel.
Proof.
  rewrite solve_eq.
  pose proof (ac3_ends cw None (enforce_node_consistency domains).2) as Hac3.
  destruct (ac3 cw None _) as [[b| |] d1]; try done.
  rewrite backtrack_from_eq. apply backtrack_terminates.
Qed.

(** ** [enforce_node_consistency]: what is kept *)

Lemma filter_ext_elem_of {A} (P Q : A -> Prop) `{!forall x, Decision (P x)}
    `{!forall x, Decision (Q x)} (l : list A) :
  (forall x, x ∈ l -> (P x <-> Q x)) -> filter P l = filter Q l.
Proof.
  induction l as [|a l IH]; intros Hext; [done|].
  rewrite !filter_cons.
  assert (Ha : P a <-> Q a) by (apply Hext, elem_of_cons; by left).
  rewrite IH by (intros x Hx; apply Hext, elem_of_cons; by right).
  destruct (decide (P a)), (decide (Q a)); tauto.
Qed.

Lemma remove_wrong_lengths (n : nat) (ws : list string) :
  remove_all (filter (fun w => String.length w <> n) ws) ws
  = filter (fun w => String.length w = n) ws.
Proof.
  unfold remove_all. apply filter_ext_elem_of. intros w Hw.
  rewrite list_elem_of_filter. split.
  - intros Hn. destruct (decide (String.length w = n)); [done|].
    exfalso. apply Hn. done.
  - intros Heq [Hne _]. done.
Qed.

Lemma enforce_node_consistency_lookup (domains : Domains) v :
  (enforce_node_consistency domains).2 !! v
  = filter (fun w => String.length w = Var.length v) <$> domains !! v.
Proof.
  destruct (enforce_node_consistency_eq domains) as (d' & -> & Hd').
  simpl. rewrite Hd'. destruct (domains !! v) as [ws|]; [|done].
  simpl. by rewrite remove_wrong_lengths.
Qed.

Lemma enforce_node_consistency_idem (domains : Domains) :
  (enforce_node_consistency (enforce_node_consistency domains).2).2
  = (enforce_node_consistency domains).2.
Proof.
  apply map_eq. intros v. rewrite !enforce_node_consistency_lookup.
  destruct (domains !! v) as [ws|]; [|done]. simpl. f_equal.
  rewrite list_filter_filter. apply list_filter_iff. tauto.
Qed.

(** X1: [enforce_node_consistency] raises nothing; it keeps the entries of
    the store and, in each, exactly the words of the slot's length, in
    their order; run again, it changes nothing. *)
Theorem enforce_node_consistency_exact (domains : Domains) :
  (enforce_node_consistency domains).1 = Ok tt
  /\ (forall v,
        (enforce_node_consistency domains).2 !! v
        = filter (fun w => String.length w = Var.length v) <$> domains !! v)
  /\ (enforce_node_consistency (enforce_node_consistency domains).2).2
     = (enforce_node_consistency domains).2.
Proof.
  split_and!; [done | apply enforce_node_consistency_lookup
              | apply enforce_node_consistency_idem].
Qed.

(** ** [revise]: the arc it leaves behind *)

Lemma revise_scan_reads domains y ov xs acc res :
  revise_scan domains y ov xs acc = Ok res -> xs <> [] ->
  exists dy chars,
    domains !! y = Some dy /\ for_each (char_at ov.2) dy = Ok chars.
Proof.
  destruct xs as [|w xs]; [by intros _ ?|]. intros H _. simpl in H.
  unfold getitem in H. munfold.
  destruct (domains !! y) as [dy|] eqn:Hdy; [|done].
  destruct (for_each (char_at ov.2) dy) as [chars| |] eqn:Hchars; [|done..].
  by exists dy, chars.
Qed.

Lemma revise_scan_all_supported domains y ov xs acc :
  (xs <> [] ->
   exists dy chars,
     domains !! y = Some dy /\ for_each (char_at ov.2) dy = Ok chars) ->
  (forall w, w ∈ xs -> supported domains y ov w) ->
  revise_scan domains y ov xs acc = Ok acc.
Proof.
  intros Hread Hsup. induction xs as [|w xs IH]; [done|].
  destruct Hread as (dy & chars & Hdy & Hchars); [done|].
  simpl. unfold getitem. rewrite Hdy. munfold. rewrite Hchars.
  destruct (Hsup w) as (dy' & w' & Hdy' & Hw' & c & Hc1 & Hc2).
  { apply elem_of_cons. by left. }
  simplify_eq. apply char_at_Ok in Hc1. rewrite Hc1.
  rewrite bool_decide_eq_true_2.
  2:{ apply (for_each_chars _ _ _ Hchars). eauto. }
  apply IH.
  - intros _. eauto.
  - intros w0 Hw0. apply Hsup, elem_of_cons. by right.
Qed.

Lemma revise_result cw x y ov (domains domains' : Domains) b :
  revise cw x y domains = (Ok b, domains') ->
  overlaps cw !! (x, y) = Some (Some ov) ->
  exists dx dx',
    domains !! x = Some dx
    /\ domains' = <[x := dx']> domains
    /\ dx' `sublist_of` dx
    /\ (forall w, w ∈ dx' <-> w ∈ dx /\ supported domains y ov w)
    /\ (b = true <-> length dx' < length dx)
    /\ (dx <> [] ->
        exists dy chars,
          domains !! y = Some dy /\ for_each (char_at ov.2) dy = Ok chars).
Proof.
  intros Hrev Hov. pose proof Hrev as Hinv. apply revise_inv in Hinv.
  rewrite Hov in Hinv.
  destruct Hinv as (dx & rem & Hdx & -> & Hdec & Hrem & Hb).
  exists dx, (remove_all rem dx). split_and!; [done | done | | | |].
  - apply sublist_filter.
  - intros w. rewrite elem_of_remove_all, Hrem. split.
    + intros [Hw Hn]. destruct (Hdec w Hw); tauto.
    + tauto.
  - rewrite Hb. split.
    + intros (w & Hw & Hn). apply (length_filter_lt _ _ w); [done|].
      intros Hnin. apply Hnin, Hrem. auto.
    + intros Hlt. destruct b; [apply Hb; done|].
      assert (rem = []) as ->.
      { apply elem_of_nil_inv. intros w Hw. apply Hrem in Hw.
        assert (false = true); [|done]. apply Hb. eauto. }
      rewrite remove_all_nil in Hlt. lia.
  - intros Hne. rewrite revise_eq, Hov, Hdx in Hrev.
    destruct (revise_scan domains y ov dx ([], false)) as [res| |] eqn:Hscan;
      [|done..].
    by apply (revise_scan_reads _ _ _ _ _ _ Hscan).
Qed.

Lemma revise_again cw x y (domains domains' : Domains) b :
  revise cw x y domains = (Ok b, domains') -> x <> y ->
  revise cw x y domains' = (Ok false, domains').
Proof.
  intros Hrev Hxy.
  destruct (overlaps cw !! (x, y)) as [[ov|]|] eqn:Hov.
  - destruct (revise_result _ _ _ _ _ _ _ Hrev Hov)
      as (dx & dx' & Hdx & -> & Hsub & Hdx' & _ & Hread).
    rewrite revise_eq, Hov, lookup_insert_eq.
    rewrite revise_scan_all_supported.
    + simpl. rewrite remove_all_nil, insert_insert_eq. done.
    + intros Hne. rewrite lookup_insert_ne by done. apply Hread.
      intros ->. apply sublist_nil_r in Hsub. done.
    + intros w Hw. apply Hdx' in Hw as [_ Hs].
      apply (supported_same domains); [|done]. by rewrite lookup_insert_ne.
  - apply revise_inv in Hrev. rewrite Hov in Hrev. destruct Hrev as [_ ->].
    by rewrite revise_eq, Hov.
  - apply revise_inv in Hrev. by rewrite Hov in Hrev.
Qed.

(** X2: on two distinct slots that cross, [revise(x, y)] keeps in the
    domain of [x] exactly the words that a word of [y] supports at the
    crossing and touches no other entry; it returns [True] exactly when a
    word went; afterwards the arc holds, and a second [revise(x, y)]
    returns [False] and changes nothing. *)
Theorem revise_establishes_arc (cw : Crossword) (x y : Var.t) (ov : nat * nat)
    (domains domains' : Domains) (b : bool) :
  revise cw x y domains = (Ok b, domains') ->
  x <> y ->
  overlaps cw !! (x, y) = Some (Some ov) ->
  (exists dx dx',
     domains !! x = Some dx
     /\ domains' = <[x := dx']> domains
     /\ (forall w, w ∈ dx' <-> w ∈ dx /\ supported domains y ov w)
     /\ (b = true <-> length dx' < length dx))
  /\ arc_ok domains' x y ov
  /\ revise cw x y domains' = (Ok false, domains').
Proof.
  intros Hrev Hxy Hov.
  destruct (revise_result _ _ _ _ _ _ _ Hrev Hov)
    as (dx & dx' & Hdx & -> & Hsub & Hdx' & Hb & _).
  split_and!.
  - by exists dx, dx'.
  - intros dx0 w. rewrite lookup_insert_eq. intros [= <-] Hw.
    apply Hdx' in Hw as [_ Hs].
    apply (supported_same domains); [|done]. by rewrite lookup_insert_ne.
  - by apply (revise_again _ _ _ _ _ _ Hrev).
Qed.

(** ** [ac3]: what [False] means *)

Lemma ac3_loop_false cw fuel queue (domains domains' : Domains) :
  ac3_loop cw fuel queue domains = (Ok false, domains') ->
  exists arc : Arc, domains' !! arc.1 = Some [].
Proof.
  revert queue domains. induction fuel as [|fuel IH]; intros queue domains.
  - destruct queue; simpl; munfold; done.
  - destruct queue as [|arc queue]; [simpl; munfold; done|].
    rewrite ac3_loop_cons.
    destruct (revise cw arc.1 arc.2 domains) as [[[]| |] d1]; try done.
    + destruct (d1 !! arc.1) as [dx|] eqn:Hdx; [|done].
      case_bool_decide as Hlen; [|apply IH].
      intros [= <-]. exists arc. apply length_zero_iff_nil in Hlen.
      by subst.
    + apply IH.
Qed.

(** X3: [ac3] returns [False] only with a store in which some slot has no
    word left. *)
Theorem ac3_false_empties_a_domain (cw : Crossword)
    (arcs : option (list Arc)) (domains domains' : Domains) :
  ac3 cw arcs domains = (Ok false, domains') ->
  exists x, domains' !! x = Some [].
Proof.
  rewrite ac3_eq.
  destruct (match arcs with None => _ | Some _ => _ end); [|done..].
  intros [arc H]%ac3_loop_false. eauto.
Qed.

(** ** [consistent]: what it accepts *)

Lemma remove_dups_length_le {A} `{EqDecision A} (l : list A) :
  length (remove_dups l) <= length l.
Proof.
  induction l as [|x l IH]; [done|]. simpl.
  destruct (decide_rel elem_of x l); simpl; lia.
Qed.

Lemma remove_dups_length_NoDup {A} `{EqDecision A} (l : list A) :
  length (remove_dups l) = length l <-> NoDup l.
Proof.
  induction l as [|x l IH]; [by split; [constructor|]|]. simpl.
  pose proof (remove_dups_length_le l).
  destruct (decide_rel elem_of x l) as [Hin|Hnin]; simpl.
  - split; [lia|]. intros Hnd. apply NoDup_cons in Hnd as [? _]. done.
  - rewrite NoDup_cons. split.
    + intros [= Hlen]. split; [done | by apply IH].
    + intros [_ Hnd]. f_equal. by apply IH.
Qed.

Lemma NoDup_fmap_inj_on {A B} (f : A -> B) (l : list A) x y :
  NoDup (f <$> l) -> x ∈ l -> y ∈ l -> f x = f y -> x = y.
Proof.
  induction l as [|a l IH]; [by intros _ ?%elem_of_nil|].
  rewrite fmap_cons, NoDup_cons, !elem_of_cons.
  intros [Hnin Hnd] [->|Hx] [->|Hy] Heq; try done.
  - destruct Hnin. rewrite Heq. by apply list_elem_of_fmap_2.
  - destruct Hnin. rewrite <- Heq. by apply list_elem_of_fmap_2.
  - by apply IH.
Qed.

Lemma dict_entry_unique (a : Assignment) k w1 w2 :
  NoDup (keys a) -> (k, w1) ∈ a -> (k, w2) ∈ a -> w1 = w2.
Proof.
  intros Hnd H1 H2.
  by pose proof (NoDup_fmap_inj_on fst a _ _ Hnd H1 H2 eq_refl) as [= ->].
Qed.

Lemma dict_get_of_elem (a : Assignment) k w :
  NoDup (keys a) -> (k, w) ∈ a -> dict_get a k = Ok w.
Proof.
  intros Hnd Hin.
  assert (Hk : k ∈ keys a).
  { unfold keys. apply list_elem_of_fmap. by exists (k, w). }
  assert (Hsome : exists w', dict_get a k = Ok w').
  { clear Hnd Hin. induction a as [|[k' w'] a IH];
      [by apply elem_of_nil in Hk|].
    simpl. destruct (decide (k' = k)); [eauto|].
    apply IH. unfold keys in Hk. rewrite fmap_cons in Hk.
    apply elem_of_cons in Hk as [?|?]; [simpl in *; congruence | done]. }
  destruct Hsome as [w' Hw']. rewrite Hw'. f_equal.
  apply dict_get_elem_of in Hw'. by apply (dict_entry_unique a k).
Qed.

Lemma consistent_neighbors_intro cw a word var ns :
  (forall n, n ∈ ns ->
     exists ov w2,
       overlaps cw !! (var, n) = Some (Some ov)
       /\ dict_get a n = Ok w2 /\ agree ov word w2) ->
  consistent_neighbors cw a word var ns = Ok true.
Proof.
  induction ns as [|n ns IH]; intros H; [done|]. simpl.
  destruct (H n) as (ov & w2 & Hov & Hw2 & c & Hc1 & Hc2).
  { apply elem_of_cons. by left. }
  unfold getitem. rewrite Hov. munfold. simpl.
  apply char_at_Ok in Hc1, Hc2. rewrite Hc1, Hw2. munfold. rewrite Hc2.
  rewrite bool_decide_eq_false_2 by (intros Hne; by apply Hne).
  apply IH. intros n' Hn'. apply H, elem_of_cons. by right.
Qed.

Lemma consistent_items_intro cw a items :
  (forall var word, (var, word) ∈ items ->
     consistent_neighbors cw a word var
       (filter (fun n => n ∈ keys a) (neighbors cw var)) = Ok true) ->
  consistent_items cw a items = Ok true.
Proof.
  induction items as [|[var word] items IH]; intros H; [done|]. simpl.
  rewrite (H var word) by (apply elem_of_cons; by left). munfold.
  apply IH. intros v w Hin. apply H, elem_of_cons. by right.
Qed.

Lemma length_check_false (a : Assignment) :
  existsb (fun p => bool_decide (Var.length p.1 <> String.length p.2)) a
  = false <->
  forall v w, (v, w) ∈ a -> String.length w = Var.length v.
Proof.
  split.
  - intros He v w Hin.
    destruct (decide (String.length w = Var.length v)) as [|Hne]; [done|].
    assert (existsb
              (fun p => bool_decide (Var.length p.1 <> String.length p.2)) a
            = true); [|congruence].
    apply existsb_exists. exists (v, w). split; [by apply list_elem_of_In|].
    apply bool_decide_eq_true_2. simpl. congruence.
  - intros H. apply not_true_is_false. intros He.
    apply existsb_exists in He as ([v w] & Hin & Hb).
    apply bool_decide_eq_true_1 in Hb. simpl in Hb.
    apply list_elem_of_In, H in Hin. congruence.
Qed.

Lemma keys_values_length (a : Assignment) :
  length (keys a) = length a /\ length (values a) = length a.
Proof. unfold keys, values. by rewrite !length_fmap. Qed.

Lemma consistent_fits cw a :
  NoDup (keys a) -> consistent cw a = Ok true -> fits cw a.
Proof.
  intros Hnd Hc. split_and!.
  - unfold consistent in Hc. case_bool_decide as Hlen; [done|].
    apply remove_dups_length_NoDup.
    apply remove_dups_length_NoDup in Hnd.
    destruct (keys_values_length a). lia.
  - intros v w. by apply (consistent_length cw).
  - intros x wx y wy Hx Hy Hn.
    destruct (consistent_agree cw a x wx y Hc Hx Hn)
      as (ov & wy' & Hov & Hwy' & Hag).
    { unfold keys. apply list_elem_of_fmap. by exists (y, wy). }
    rewrite (dict_entry_unique a y wy wy') by done. eauto.
Qed.

Lemma fits_consistent cw a :
  NoDup (keys a) -> fits cw a -> consistent cw a = Ok true.
Proof.
  intros Hnd (Hvals & Hlen & Hcross). unfold consistent.
  rewrite bool_decide_eq_false_2.
  2:{ intros Hne. apply Hne.
      apply remove_dups_length_NoDup in Hnd, Hvals.
      destruct (keys_values_length a). lia. }
  rewrite (proj2 (length_check_false a)) by done.
  apply consistent_items_intro. intros var word Hin.
  apply consistent_neighbors_intro. intros n [Hk Hn]%list_elem_of_filter.
  apply keys_elem_of in Hk as [w2 Hw2].
  destruct (Hcross var word n w2 Hin Hw2 Hn) as (ov & Hov & Hag).
  exists ov, w2. split_and!; [done | by apply dict_get_of_elem | done].
Qed.

Lemma fits_subdict cw (a s : Assignment) :
  NoDup (keys a) -> a ⊆ s -> fits cw s -> fits cw a.
Proof.
  intros Hnd Hsub (Hvals & Hlen & Hcross). split_and!.
  - unfold values in *. apply NoDup_fmap_2_strong.
    + intros e1 e2 H1 H2 Heq.
      by apply (NoDup_fmap_inj_on snd s); [| apply Hsub | apply Hsub |].
    + by apply (NoDup_fmap_1 fst).
  - intros v w Hin. by apply Hlen, Hsub.
  - intros x wx y wy Hx Hy. apply Hcross; by apply Hsub.
Qed.

Lemma consistent_subdict cw (a s : Assignment) :
  NoDup (keys a) -> NoDup (keys s) -> a ⊆ s ->
  consistent cw s = Ok true -> consistent cw a = Ok true.
Proof.
  intros Ha Hs Hsub Hc. apply fits_consistent; [done|].
  apply (fits_subdict cw a s); [done..|]. by apply consistent_fits.
Qed.

Lemma consistent_repeated_word cw (a : Assignment) v1 v2 w :
  NoDup (keys a) -> (v1, w) ∈ a -> (v2, w) ∈ a -> v1 <> v2 ->
  consistent cw a = Ok false.
Proof.
  intros Hnd H1 H2 Hne. unfold consistent.
  rewrite bool_decide_eq_true_2; [done|]. intros Hlen.
  assert (Hvals : NoDup (values a)).
  { apply remove_dups_length_NoDup.
    apply remove_dups_length_NoDup in Hnd.
    destruct (keys_values_length a). lia. }
  by pose proof (NoDup_fmap_inj_on snd a _ _ Hvals H1 H2 eq_refl) as [= ->].
Qed.

(** *** No exception on a grid with sound offsets *)

Lemma string_get_lt k (w : string) :
  k < String.length w -> exists c, String.get k w = Some c.
Proof.
  revert k. induction w as [|c w IH]; intros k Hk; simpl in *; [lia|].
  destruct k as [|k]; [eauto|]. apply IH. lia.
Qed.

Lemma char_at_lt k (w : string) :
  k < String.length w -> exists c, char_at k w = Ok c.
Proof.
  intros (c & Hc)%string_get_lt. exists c. by apply char_at_Ok.
Qed.

Lemma dict_get_key (a : Assignment) k :
  k ∈ keys a -> exists w, dict_get a k = Ok w.
Proof.
  induction a as [|[k' w'] a IH]; [by intros ?%elem_of_nil|].
  unfold keys. rewrite fmap_cons, elem_of_cons. simpl. intros [->|Hk].
  - rewrite decide_True by done. eauto.
  - destruct (decide (k' = k)); [eauto | by apply IH].
Qed.

Section sound_offsets.
Context (cw : Crossword) (Hsym : overlaps_symmetric cw)
        (Hrange : offsets_in_range cw).

Lemma consistent_neighbors_returns (a : Assignment) word var ns :
  String.length word = Var.length var ->
  (forall v w, (v, w) ∈ a -> String.length w = Var.length v) ->
  (forall n, n ∈ ns -> n ∈ keys a /\ n ∈ neighbors cw var) ->
  exists b, consistent_neighbors cw a word var ns = Ok b.
Proof using Hsym Hrange.
  intros Hword Hlen. induction ns as [|n ns IH]; intros Hns; [by eexists|].
  destruct (Hns n) as [Hk Hn]; [apply elem_of_cons; by left|].
  apply list_elem_of_filter in Hn as [[_ Hdef] _].
  apply Is_true_true in Hdef. unfold overlap_defined in Hdef.
  destruct (overlaps cw !! (n, var)) as [[[j i]|]|] eqn:Hov; try done.
  pose proof (Hrange _ _ _ _ Hov) as [Hj Hi].
  apply Hsym in Hov. simpl. unfold getitem. rewrite Hov. munfold. simpl.
  destruct (char_at_lt i word) as [c1 ->]; [lia|].
  destruct (dict_get_key a n Hk) as [w2 Hw2]. rewrite Hw2. munfold.
  destruct (char_at_lt j w2) as [c2 ->].
  { apply dict_get_elem_of, Hlen in Hw2. lia. }
  case_bool_decide; [by eexists|].
  apply IH. intros n' Hn'. apply Hns, elem_of_cons. by right.
Qed.

Lemma consistent_items_returns (a items : Assignment) :
  (forall v w, (v, w) ∈ a -> String.length w = Var.length v) ->
  items ⊆ a ->
  exists b, consistent_items cw a items = Ok b.
Proof using Hsym Hrange.
  intros Hlen. induction items as [|[var word] items IH]; intros Hsub;
    [by eexists|].
  simpl.
  destruct (consistent_neighbors_returns a word var
              (filter (fun n => n ∈ keys a) (neighbors cw var)))
    as [b Hb].
  - apply Hlen, Hsub, elem_of_cons. by left.
  - done.
  - intros n. rewrite list_elem_of_filter. tauto.
  - rewrite Hb. munfold. destruct b; [|by eexists].
    apply IH. intros e He. apply Hsub, elem_of_cons. by right.
Qed.

Lemma consistent_returns (a : Assignment) :
  exists b, consistent cw a = Ok b.
Proof using Hsym Hrange.
  unfold consistent. case_bool_decide; [by eexists|].
  destruct (existsb _ a) eqn:He; [by eexists|].
  apply consistent_items_returns; [|done]. by apply length_check_false.
Qed.

End sound_offsets.


(** X5: a dict that gives one word to two slots is never consistent. *)
Theorem consistent_rejects_repeated_word (cw : Crossword) (a : Assignment)
    (v1 v2 : Var.t) (w : string) :
  NoDup (keys a) -> (v1, w) ∈ a -> (v2, w) ∈ a -> v1 <> v2 ->
  consistent cw a = Ok false.
Proof. apply consistent_repeated_word. Qed.

(** X6: consistency is inherited: every part of a consistent dict is
    consistent. *)
Theorem consistent_inherited (cw : Crossword) (a s : Assignment) :
  NoDup (keys a) -> NoDup (keys s) -> a ⊆ s ->
  consistent cw s = Ok true -> consistent cw a = Ok true.
Proof. apply consistent_subdict. Qed.


(** ** Sorting: order and least element *)

Lemma for_each_Forall2 {A B} (f : A -> Res B) (l : list A) r :
  for_each f l = Ok r -> Forall2 (fun a b => f a = Ok b) l r.
Proof.
  revert r. induction l as [|a l IH]; intros r H; simpl in H.
  - simplify_eq. constructor.
  - munfold. destruct (f a) as [b| |] eqn:Hb; [|done..].
    destruct (for_each f l) as [r'| |]; [|done..].
    simplify_eq. constructor; [done | by apply IH].
Qed.

Lemma for_each_Ok {A B} (f : A -> Res B) (g : A -> B) (l : list A) :
  (forall a, a ∈ l -> f a = Ok (g a)) -> for_each f l = Ok (g <$> l).
Proof.
  induction l as [|a l IH]; intros H; [done|]. simpl.
  rewrite H by (apply elem_of_cons; by left). munfold.
  rewrite IH; [done|]. intros a' Ha'. apply H, elem_of_cons. by right.
Qed.

Lemma insert_by_sorted {A} (key : A -> nat) x l :
  StronglySorted (fun a b => key a <= key b) l ->
  StronglySorted (fun a b => key a <= key b) (insert_by Nat.leb key x l).
Proof.
  induction 1 as [|y l Hs IH Hall]; simpl; [repeat constructor|].
  destruct (Nat.leb_spec (key x) (key y)) as [Hle|Hlt].
  - constructor; [by constructor|]. constructor; [done|].
    eapply Forall_impl; [done|]. simpl. lia.
  - constructor; [done|].
    rewrite (insert_by_perm Nat.leb key x l). constructor; [lia | done].
Qed.

Lemma sorted_sorted {A} (key : A -> nat) l :
  StronglySorted (fun a b => key a <= key b) (sorted key l).
Proof.
  unfold sorted. induction l as [|x l IH]; simpl; [constructor|].
  by apply insert_by_sorted.
Qed.

(** A strict minimum that occurs once comes first. *)
Lemma sorted_strict_min {A} (key : A -> nat) l x :
  NoDup l -> x ∈ l ->
  (forall y, y ∈ l -> y <> x -> key x < key y) ->
  exists rest,
    sorted key l = x :: rest /\ Forall (fun y => key x < key y) rest.
Proof.
  unfold sorted. induction l as [|a l IH]; [by intros _ ?%elem_of_nil|].
  rewrite NoDup_cons. intros [Hnin Hnd] Hx Hmin. simpl.
  apply elem_of_cons in Hx as [->|Hx].
  - assert (Hall : Forall (fun y => key a < key y)
                     (foldr (insert_by Nat.leb key) [] l)).
    { apply Forall_forall. intros y Hy.
      rewrite foldr_insert_by_perm in Hy.
      apply Hmin; [apply elem_of_cons; by right|]. by intros ->. }
    destruct (foldr (insert_by Nat.leb key) [] l) as [|y t] eqn:Hs; simpl.
    + by exists [].
    + apply Forall_cons in Hall as Hall'. destruct Hall' as [Hy _].
      destruct (Nat.leb_spec (key a) (key y)); [|lia]. by exists (y :: t).
  - destruct IH as (rest & -> & Hrest); [done | done | |].
    { intros y Hy. apply Hmin, elem_of_cons. by right. }
    simpl. assert (Hax : key x < key a).
    { apply Hmin; [apply elem_of_cons; by left|]. by intros ->. }
    destruct (Nat.leb_spec (key a) (key x)); [lia|].
    exists (insert_by Nat.leb key a rest). split; [done|].
    rewrite insert_by_perm. by constructor.
Qed.

(** ** [order_domain_values]: the order of the words *)

Lemma for_each_elem_of {A B} (f : A -> Res B) (l : list A) r b :
  for_each f l = Ok r -> b ∈ r -> exists a, a ∈ l /\ f a = Ok b.
Proof.
  revert r. induction l as [|a l IH]; intros r H Hb; simpl in H.
  - simplify_eq. by apply elem_of_nil in Hb.
  - munfold. destruct (f a) as [b0| |] eqn:Hb0; [|done..].
    destruct (for_each f l) as [r'| |]; [|done..]. simplify_eq.
    apply elem_of_cons in Hb as [->|Hb].
    + exists a. split; [apply elem_of_cons; by left | done].
    + destruct (IH r' eq_refl Hb) as (a' & Ha' & Hf).
      exists a'. split; [apply elem_of_cons; by right | done].
Qed.

Lemma StronglySorted_snd {A} (l : list (A * nat)) :
  StronglySorted (fun a b => a.2 <= b.2) l -> StronglySorted le (l.*2).
Proof.
  induction 1 as [|p l Hs IH Hall]; [constructor|].
  rewrite fmap_cons. constructor; [done|]. by apply Forall_fmap.
Qed.

Lemma order_domain_values_inv cw (domains : Domains) var a vals :
  order_domain_values cw domains var a = Ok vals ->
  exists dv weights,
    domains !! var = Some dv
    /\ vals ≡ₚ dv
    /\ Forall2 (fun w n =>
                  word_weight cw domains var w
                    (filter (fun n => n ∉ keys a) (neighbors cw var))
                  = Ok n) vals weights
    /\ StronglySorted le weights.
Proof.
  unfold order_domain_values, getitem. munfold.
  destruct (domains !! var) as [dv|]; [|done].
  destruct (for_each _ dv) as [ws| |] eqn:Hws; [|done..].
  intros [= <-]. exists dv, (sorted snd ws).*2. split_and!; [done | | |].
  - unfold sorted. rewrite foldr_insert_by_perm.
    apply (for_each_fmap _ fst) in Hws as ->; [done|].
    intros w p. by destruct (word_weight _ _ _ _ _); [intros [= <-]|..].
  - apply Forall2_fmap, Forall_Forall2_diag, Forall_forall.
    intros p Hp. unfold sorted in Hp. rewrite foldr_insert_by_perm in Hp.
    destruct (for_each_elem_of _ _ _ _ Hws Hp) as (w & _ & Hw).
    munfold.
    destruct (word_weight cw domains var w _) as [n| |] eqn:Hn; [|done..].
    by simplify_eq.
  - apply StronglySorted_snd, sorted_sorted.
Qed.


(** ** [select_unassigned_variable]: the slot chosen *)

Lemma select_none_unassigned cw (domains : Domains) (a : Assignment) :
  (forall v, v ∈ variables cw -> v ∈ keys a) ->
  select_unassigned_variable cw domains a = Raise IndexError.
Proof.
  intros Hall. unfold select_unassigned_variable.
  assert (filter (fun v => v ∉ keys a) (variables cw) = []) as ->.
  { apply elem_of_nil_inv. intros v [Hn Hv]%list_elem_of_filter.
    by apply Hn, Hall. }
  reflexivity.
Qed.

Lemma select_strict_min cw (domains : Domains) (a : Assignment) u du :
  NoDup (variables cw) ->
  u ∈ variables cw -> u ∉ keys a -> domains !! u = Some du ->
  (forall v, v ∈ variables cw -> v ∉ keys a -> v <> u ->
     exists dv, domains !! v = Some dv /\ length du < length dv) ->
  select_unassigned_variable cw domains a = Ok u.
Proof.
  intros Hnd Hu Hnin Hdu Hmin. unfold select_unassigned_variable.
  set (unassigned_vars := filter (fun v => v ∉ keys a) (variables cw)).
  set (count := fun v => (v, length (default [] (domains !! v)))).
  assert (Hun : forall v, v ∈ unassigned_vars <->
                  (v ∉ keys a) /\ (v ∈ variables cw)).
  { intros v. unfold unassigned_vars. by rewrite list_elem_of_filter. }
  rewrite (for_each_Ok _ count).
  2:{ intros v Hv. apply Hun in Hv as [Hv1 Hv2]. unfold count, getitem.
      destruct (decide (v = u)) as [->|Hne]; [by rewrite Hdu|].
      by destruct (Hmin v Hv2 Hv1 Hne) as (dv & -> & _). }
  munfold.
  destruct (sorted_strict_min snd (count <$> unassigned_vars) (count u))
    as (rest & Hs & Hrest).
  - apply NoDup_fmap_2_strong; [|by apply NoDup_filter].
    by intros v1 v2 _ _ [= ->].
  - apply list_elem_of_fmap_2, Hun. done.
  - intros p (v & -> & Hv)%list_elem_of_fmap Hne.
    apply Hun in Hv as [Hv1 Hv2].
    assert (v <> u) by (by intros ->).
    destruct (Hmin v Hv2 Hv1) as (dv & Hdv & Hlt); [done|].
    unfold count. simpl. by rewrite Hdu, Hdv.
  - rewrite Hs. destruct rest as [|e1 rest]; simpl; [done|].
    apply Forall_cons in Hrest as [He1 _].
    rewrite bool_decide_eq_true_2; [done|]. unfold count in He1.
    simpl in He1. lia.
Qed.

(** X9: the slot [select_unassigned_variable] returns is a slot of the grid
    that the assignment does not hold yet. *)
Theorem select_unassigned_variable_fresh (cw : Crossword)
    (domains : Domains) (a : Assignment) (var : Var.t) :
  select_unassigned_variable cw domains a = Ok var ->
  var ∈ variables cw /\ var ∉ keys a.
Proof. apply select_unassigned_variable_unassigned. Qed.

(** X10: when one unassigned slot has strictly fewer words left than every
    other unassigned slot, it is the slot returned. *)
Theorem select_unassigned_variable_strict_minimum (cw : Crossword)
    (domains : Domains) (a : Assignment) (u : Var.t) (du : list string) :
  NoDup (variables cw) ->
  u ∈ variables cw -> u ∉ keys a -> domains !! u = Some du ->
  (forall v, v ∈ variables cw -> v ∉ keys a -> v <> u ->
     exists dv, domains !! v = Some dv /\ length du < length dv) ->
  select_unassigned_variable cw domains a = Ok u.
Proof. apply select_strict_min. Qed.

(** X11: when every slot already has an entry but the assignment is not
    complete (a key that is no slot, or an empty word), [backtrack] ends in
    the [IndexError] of [select_unassigned_variable], the assignment
    untouched. *)
Theorem backtrack_full_incomplete_raises (cw : Crossword)
    (domains : Domains) (a : Assignment) :
  assignment_complete cw a = false ->
  (forall v, v ∈ variables cw -> v ∈ keys a) ->
  select_unassigned_variable cw domains a = Raise IndexError
  /\ backtrack cw (domains, a) = (Raise IndexError, (domains, a)).
Proof.
  intros Hc Hall. pose proof (select_none_unassigned cw domains a Hall) as Hs.
  split; [done|]. rewrite backtrack_eq. unfold backtrack_fuel.
  rewrite backtrack_rec_S. simpl. by rewrite Hc, Hs.
Qed.

(** ** [backtrack]: the assignment it builds *)

Lemma dict_set_absent (a : Assignment) k w :
  k ∉ keys a -> dict_set a k w = (a ++ [(k, w)])%list.
Proof.
  unfold keys. induction a as [|[k' w'] a IH]; [done|].
  rewrite fmap_cons, not_elem_of_cons. intros [Hne Hnin]. simpl in *.
  destruct (decide (k' = k)) as [->|]; [done|]. by rewrite IH.
Qed.

Lemma grown_refl cw domains a : grown cw domains a a.
Proof. split_and!; [done | done | by left]. Qed.

Lemma grown_step cw (domains : Domains) a var value dv r :
  var ∈ variables cw -> var ∉ keys a ->
  domains !! var = Some dv -> value ∈ dv ->
  grown cw domains (dict_set a var value) r ->
  grown cw domains a r.
Proof.
  intros Hvar Hnin Hdv Hval (Hpre & Hnd & Hin).
  rewrite dict_set_absent in Hpre, Hin by done.
  rewrite keys_dict_set in Hnd by done.
  split_and!.
  - by eapply prefix_app_l.
  - intros Ha. apply Hnd, NoDup_app.
    split_and!; [done | | apply NoDup_singleton].
    intros x Hx ->%list_elem_of_singleton. done.
  - intros v w Hvw. destruct (Hin v w Hvw) as [Hold|(Hv & Hk & Hd)].
    + apply elem_of_app in Hold as [?|[= -> ->]%list_elem_of_singleton];
        [by left|].
      right. split_and!; [done..|]. eauto.
    + right. split_and!; [done| |done].
      intros Hk'. apply Hk.
      unfold keys. rewrite fmap_app. apply elem_of_app. by left.
Qed.

Lemma backtrack_values_grown cw rec var vals dv (s s' : Search) r :
  var ∈ variables cw -> var ∉ keys s.2 ->
  s.1 !! var = Some dv -> vals ⊆ dv ->
  (forall s0 s0', rec s0 = (Ok None, s0') -> s0' = s0) ->
  (forall s0 s0' r0,
     rec s0 = (Ok (Some r0), s0') ->
     s0' = (s0.1, r0) /\ grown cw s0.1 s0.2 r0) ->
  backtrack_values cw rec var vals s = (Ok (Some r), s') ->
  s' = (s.1, r) /\ grown cw s.1 s.2 r.
Proof.
  intros Hvar Hnin Hdv Hsub Hnone Hsome.
  induction vals as [|value vals IH]; [simpl; munfold; done|].
  rewrite backtrack_values_cons.
  assert (Hval : value ∈ dv) by (apply Hsub, elem_of_cons; by left).
  assert (Hrest : vals ⊆ dv).
  { intros w Hw. apply Hsub, elem_of_cons. by right. }
  destruct (consistent cw (dict_set s.2 var value)) as [[]| |]; try done.
  - destruct (rec _) as [[[r0|]| |] s0'] eqn:Hr; try done.
    + intros [= <- <-]. apply Hsome in Hr as [-> Hg]. simpl in *.
      split; [done|]. by apply (grown_step cw s.1 s.2 var value dv).
    + apply Hnone in Hr as ->. simpl. rewrite dict_pop_set by done.
      destruct s. by apply IH.
  - rewrite dict_pop_absent by done. destruct s. by apply IH.
Qed.

Lemma backtrack_rec_grown cw fuel (s s' : Search) r :
  backtrack_rec cw fuel s = (Ok (Some r), s') ->
  s' = (s.1, r) /\ grown cw s.1 s.2 r.
Proof.
  revert s s' r. induction fuel as [|fuel IH]; intros s s' r; [done|].
  rewrite backtrack_rec_S.
  destruct (assignment_complete cw s.2).
  - intros [= <- <-]. destruct s. split; [done | apply grown_refl].
  - destruct (select_unassigned_variable cw s.1 s.2) as [var| |] eqn:Hsel;
      try done.
    destruct (order_domain_values cw s.1 var s.2) as [vals| |] eqn:Hord;
      try done.
    apply select_unassigned_variable_unassigned in Hsel as [Hvar Hnin].
    apply order_domain_values_inv in Hord as (dv & _ & Hdv & Hperm & _).
    apply (backtrack_values_grown cw _ var vals dv); try done.
    + by rewrite Hperm.
    + apply backtrack_rec_None.
Qed.

(** ** [backtrack]: the search is exhaustive *)

Lemma backtrack_values_None_all cw rec var vals (s s' : Search) value :
  var ∉ keys s.2 ->
  (forall s0 s0', rec s0 = (Ok None, s0') -> s0' = s0) ->
  backtrack_values cw rec var vals s = (Ok None, s') ->
  value ∈ vals ->
  consistent cw (dict_set s.2 var value) = Ok false
  \/ exists s1, rec (s.1, dict_set s.2 var value) = (Ok None, s1).
Proof.
  intros Hnin Hnone. induction vals as [|v0 vals IH];
    [by intros _ ?%elem_of_nil|].
  rewrite backtrack_values_cons. intros H Hval.
  destruct (consistent cw (dict_set s.2 var v0)) as [[]| |] eqn:Hc;
    try done.
  - destruct (rec (s.1, dict_set s.2 var v0)) as [[[r0|]| |] s0'] eqn:Hr;
      try by simplify_eq.
    pose proof Hr as Hr'. apply Hnone in Hr' as ->. simpl in H.
    rewrite dict_pop_set in H by done.
    apply elem_of_cons in Hval as [->|Hval]; [right; eauto|].
    destruct s. by apply IH.
  - rewrite dict_pop_absent in H by done.
    apply elem_of_cons in Hval as [->|Hval]; [by left|].
    destruct s. by apply IH.
Qed.

Lemma backtrack_rec_exhaustive cw fuel (s s' : Search) sol :
  backtrack_rec cw fuel s = (Ok None, s') ->
  NoDup (keys s.2) ->
  solution cw s.1 sol -> NoDup (keys sol) -> s.2 ⊆ sol ->
  False.
Proof.
  revert s s'. induction fuel as [|fuel IH]; intros s s'; [done|].
  rewrite backtrack_rec_S. intros H Hnd (Hcomplete & Hcons & Hdom) Hsol Hsub.
  destruct (assignment_complete cw s.2); [done|].
  destruct (select_unassigned_variable cw s.1 s.2) as [var| |] eqn:Hsel;
    try done.
  destruct (order_domain_values cw s.1 var s.2) as [vals| |] eqn:Hord;
    try done.
  apply select_unassigned_variable_unassigned in Hsel as [Hvar Hnin].
  apply order_domain_values_inv in Hord as (dv & _ & Hdv & Hperm & _).
  destruct (keys_elem_of sol var) as [w Hw];
    [by apply (assignment_complete_keys cw)|].
  destruct (Hdom var w Hw) as (dv' & Hdv' & Hin). simplify_eq.
  rewrite <- Hperm in Hin.
  assert (Hsub' : dict_set s.2 var w ⊆ sol).
  { rewrite dict_set_absent by done. intros e [He|He]%elem_of_app.
    - by apply Hsub.
    - apply list_elem_of_singleton in He as ->. done. }
  assert (Hnd' : NoDup (keys (dict_set s.2 var w))).
  { rewrite keys_dict_set by done. apply NoDup_app.
    split_and!; [done | | apply NoDup_singleton].
    intros x Hx ->%list_elem_of_singleton. done. }
  destruct (backtrack_values_None_all cw _ var vals s s' w Hnin
              (backtrack_rec_None cw fuel) H Hin) as [Hc|(s1 & Hr)].
  - rewrite (consistent_subdict cw _ sol Hnd' Hsol Hsub' Hcons) in Hc.
    done.
  - eapply (IH _ _ Hr); simpl; try done.
Qed.

(** ** [backtrack]: the fuel does not matter *)

Lemma backtrack_values_ext cw rec1 rec2 var vals (s : Search) :
  (forall s0, (rec1 s0).1 <> OutOfFuel -> rec2 s0 = rec1 s0) ->
  (backtrack_values cw rec1 var vals s).1 <> OutOfFuel ->
  backtrack_values cw rec2 var vals s = backtrack_values cw rec1 var vals s.
Proof.
  intros Hrec. revert s. induction vals as [|value vals IH]; intros s;
    [done|].
  rewrite !backtrack_values_cons.
  destruct (consistent cw (dict_set s.2 var value)) as [[]| |]; try done.
  - destruct (rec1 (s.1, dict_set s.2 var value)) as [[[r|]| |] s1] eqn:H1.
    + intros _. rewrite Hrec; rewrite H1; done.
    + intros Hne. rewrite Hrec; rewrite H1; [|done]. by apply IH.
    + intros _. rewrite Hrec; rewrite H1; done.
    + intros Hne. by destruct Hne.
  - apply IH.
Qed.

Lemma backtrack_rec_more_fuel cw fuel fuel' (s : Search) :
  (backtrack_rec cw fuel s).1 <> OutOfFuel -> fuel <= fuel' ->
  backtrack_rec cw fuel' s = backtrack_rec cw fuel s.
Proof.
  revert fuel' s. induction fuel as [|fuel IH]; intros fuel' s Hne Hle.
  - by destruct Hne.
  - destruct fuel' as [|fuel']; [lia|].
    rewrite !backtrack_rec_S. rewrite backtrack_rec_S in Hne.
    destruct (assignment_complete cw s.2); [done|].
    destruct (select_unassigned_variable cw s.1 s.2) as [var| |]; try done.
    destruct (order_domain_values cw s.1 var s.2) as [vals| |]; try done.
    apply backtrack_values_ext; [|done].
    intros s0 Hs0. apply IH; [done | lia].
Qed.

(** X12: the depth bound of the recursion is never reached: [backtrack]
    comes to an end, and any larger bound gives the same outcome. *)
Theorem backtrack_fuel_irrelevant (cw : Crossword) (s : Search) (fuel : nat) :
  (backtrack cw s).1 <> OutOfFuel
  /\ (backtrack_fuel cw s.2 <= fuel ->
      backtrack_rec cw fuel s = backtrack cw s).
Proof.
  split; [apply backtrack_terminates|]. intros Hle.
  rewrite backtrack_eq. apply backtrack_rec_more_fuel; [|done].
  rewrite <- backtrack_eq. apply backtrack_terminates.
Qed.

(** X13: an assignment that [backtrack] returns is the dict it was given
    with new entries after the old ones; it is the state the dict is left
    in; and each new entry gives a slot of the grid that had none a word of
    its domain. *)
Theorem backtrack_extends_assignment (cw : Crossword) (domains : Domains)
    (a r : Assignment) (s' : Search) :
  backtrack cw (domains, a) = (Ok (Some r), s') ->
  s' = (domains, r)
  /\ a `prefix_of` r
  /\ (NoDup (keys a) -> NoDup (keys r))
  /\ forall v w, (v, w) ∈ r ->
       (v, w) ∈ a
       \/ (v ∈ variables cw /\ (v ∉ keys a)
           /\ exists dv, domains !! v = Some dv /\ w ∈ dv).
Proof.
  rewrite backtrack_eq. intros H.
  by apply backtrack_rec_grown in H as [-> (? & ? & ?)].
Qed.

(** X14: the search is exhaustive: when [backtrack] returns [None] on a
    dict, no complete consistent assignment over the domain store contains
    that dict. *)
Theorem backtrack_exhaustive (cw : Crossword) (domains : Domains)
    (a sol : Assignment) (s' : Search) :
  backtrack cw (domains, a) = (Ok None, s') ->
  NoDup (keys a) -> NoDup (keys sol) -> a ⊆ sol ->
  ~ solution cw domains sol.
Proof.
  rewrite backtrack_eq. intros H Hnd Hk Hsub Hsol.
  by apply (backtrack_rec_exhaustive cw _ _ _ sol H).
Qed.

(** ** [solve]: sound and complete *)

Lemma solve_sound_aux cw (domains domains' : Domains) r :
  solve cw domains = (Ok (Some r), domains') ->
  solution cw domains r /\ NoDup (keys r) /\ subdomains domains' domains.
Proof.
  rewrite solve_eq.
  pose proof (ac3_subdomains cw None (enforce_node_consistency domains).2)
    as Hac3.
  pose proof (enforce_node_consistency_subdomains domains) as Henf.
  destruct (ac3 cw None _) as [[b| |] d1]; try done. simpl in Hac3.
  assert (Hsub : subdomains d1 domains) by (by eapply subdomains_trans).
  rewrite backtrack_from_eq.
  destruct (backtrack cw (d1, [])) as [res s1] eqn:Hb. simpl.
  intros [= -> <-]. rewrite backtrack_eq in Hb.
  destruct (backtrack_rec_Some _ _ _ _ _ Hb) as (Hc & Hcomp & _);
    [right; apply consistent_empty|].
  apply backtrack_rec_grown in Hb as [-> (_ & Hnd & Hin)]. simpl in *.
  split_and!; [split_and!; [done..|] | apply Hnd, NoDup_nil_2 | done].
  intros v w Hvw. destruct (Hin v w Hvw) as [?%elem_of_nil|(_ & _ & Hd)];
    [done|].
  destruct Hd as (dv & Hdv & Hw). specialize (Hsub v). rewrite Hdv in Hsub.
  destruct (domains !! v) as [ws|]; [|done].
  exists ws. split; [done|]. by apply (sublist_subseteq _ _ Hsub).
Qed.

Lemma solve_complete_aux cw (domains domains' : Domains) sol :
  overlaps_symmetric cw ->
  solve cw domains = (Ok None, domains') ->
  solution cw domains sol -> NoDup (keys sol) -> False.
Proof.
  intros Hsym. rewrite solve_eq. intros H Hsol Hnd.
  apply (enforce_node_consistency_keeps_solution cw) in Hsol.
  destruct (ac3 cw None _) as [[b| |] d1] eqn:Hac3; try done.
  rewrite ac3_eq in Hac3.
  destruct (initial_arcs cw) as [queue| |] eqn:Hq; [|done..].
  apply initial_arcs_proper in Hq.
  destruct (ac3_loop_keeps_solution cw Hsym _ _ _ _ _ sol Hq Hac3 Hsol)
    as [Hsol1 _].
  rewrite backtrack_from_eq in H.
  destruct (backtrack cw (d1, [])) as [res s1] eqn:Hb. simpl in H.
  simplify_eq. rewrite backtrack_eq in Hb.
  apply (backtrack_rec_exhaustive cw _ _ _ sol Hb); simpl;
    [apply NoDup_nil_2 | done | done | by intros e ?%elem_of_nil].
Qed.

Lemma init_domains_lookup cw v :
  init_domains cw !! v
  = if decide (v ∈ variables cw) then Some (words cw) else None.
Proof.
  unfold init_domains. case_decide as Hv.
  - apply elem_of_list_to_map_1'.
    + intros ws (v' & [= <- <-] & _)%list_elem_of_fmap. done.
    + apply list_elem_of_fmap. by exists v.
  - apply not_elem_of_list_to_map_1. rewrite <- list_fmap_compose.
    intros (v' & -> & Hv')%list_elem_of_fmap. done.
Qed.

(** X15: an assignment that [solve] returns is complete and consistent, is
    a dict, and takes every word from the slot's entry in the store
    [solve] started from. *)
Theorem solve_sound (cw : Crossword) (domains domains' : Domains)
    (r : Assignment) :
  solve cw domains = (Ok (Some r), domains') ->
  solution cw domains r /\ NoDup (keys r).
Proof.
  intros H. by destruct (solve_sound_aux _ _ _ _ H) as (? & ? & _).
Qed.

(** X16: on a grid whose overlap map is symmetric, [solve] returns [None]
    only when no dict is a complete consistent assignment over the store
    it started from. *)
Theorem solve_complete (cw : Crossword) (domains domains' : Domains)
    (sol : Assignment) :
  overlaps_symmetric cw ->
  solve cw domains = (Ok None, domains') ->
  NoDup (keys sol) ->
  ~ solution cw domains sol.
Proof.
  intros Hsym H Hnd Hsol. by apply (solve_complete_aux cw _ _ sol Hsym H).
Qed.

(** X17: [__init__] gives every slot of the grid the whole vocabulary and
    nothing else an entry; so what [solve] returns from there is made of
    vocabulary words. *)
Theorem solve_uses_the_vocabulary (cw : Crossword) (domains' : Domains)
    (r : Assignment) :
  (forall v,
     init_domains cw !! v
     = if decide (v ∈ variables cw) then Some (words cw) else None)
  /\ (solve cw (init_domains cw) = (Ok (Some r), domains') ->
      forall v w, (v, w) ∈ r -> v ∈ variables cw /\ w ∈ words cw).
Proof.
  split; [apply init_domains_lookup|]. intros H v w Hvw.
  destruct (solve_sound_aux _ _ _ _ H) as ((_ & _ & Hdom) & _).
  destruct (Hdom v w Hvw) as (ws & Hws & Hw).
  rewrite init_domains_lookup in Hws. case_decide; by simplify_eq.
Qed.

(** ** A well-formed grid raises no exception *)

Lemma subdomains_covers cw (d' d : Domains) :
  subdomains d' d -> covers cw d -> covers cw d'.
Proof.
  intros Hsub Hc v Hv. specialize (Hsub v). destruct (Hc v Hv) as [ws Hws].
  rewrite Hws in Hsub. by destruct (d' !! v).
Qed.

Lemma for_each_returns {A B} (f : A -> Res B) (l : list A) :
  (forall a, a ∈ l -> exists b, f a = Ok b) -> exists r, for_each f l = Ok r.
Proof.
  induction l as [|a l IH]; intros H; [by eexists|]. simpl.
  destruct (H a) as [b ->]; [apply elem_of_cons; by left|]. munfold.
  destruct IH as [r ->]; [|by eexists].
  intros a' Ha'. apply H, elem_of_cons. by right.
Qed.

Lemma for_each_length {A B} (f : A -> Res B) (l : list A) r :
  for_each f l = Ok r -> length r = length l.
Proof. intros H%for_each_Forall2. symmetry. by eapply Forall2_length. Qed.

Lemma revise_scan_returns (domains : Domains) y i j xs acc dy :
  domains !! y = Some dy ->
  (forall w, w ∈ dy -> j < String.length w) ->
  (forall w, w ∈ xs -> i < String.length w) ->
  exists res, revise_scan domains y (i, j) xs acc = Ok res.
Proof.
  intros Hdy Hj. revert acc. induction xs as [|w xs IH]; intros acc Hi;
    [by eexists|].
  simpl. unfold getitem. rewrite Hdy. munfold.
  destruct (for_each_returns (char_at j) dy) as [chars ->].
  { intros w' Hw'. by apply char_at_lt, Hj. }
  destruct (char_at_lt i w) as [c ->]; [apply Hi, elem_of_cons; by left|].
  case_bool_decide; apply IH; intros w' Hw'; apply Hi, elem_of_cons;
    by right.
Qed.

Lemma forallb_false_elem {A} (f : A -> bool) (l : list A) :
  forallb f l = false -> exists x, x ∈ l /\ f x = false.
Proof.
  induction l as [|a l IH]; [done|]. simpl.
  destruct (f a) eqn:Ha; simpl.
  - intros (x & Hx & Hf)%IH. exists x. split; [|done].
    apply elem_of_cons. by right.
  - intros _. exists a. split; [|done]. apply elem_of_cons. by left.
Qed.

Section well_formed_grid.
Context (cw : Crossword) (Hwf : well_formed cw).

Lemma revise_returns x y (domains : Domains) :
  x ∈ variables cw -> y ∈ variables cw -> x <> y ->
  covers cw domains -> node_consistent domains ->
  exists b domains', revise cw x y domains = (Ok b, domains').
Proof using Hwf.
  destruct Hwf as (Hsym & Hrange & Htotal & _).
  intros Hx Hy Hxy Hc Hnc. rewrite revise_eq.
  destruct (Htotal x y Hx Hy Hxy) as [o Hov]. rewrite Hov.
  destruct o as [[i j]|]; [|by eexists _, _].
  destruct (Hc x Hx) as [dx Hdx]. destruct (Hc y Hy) as [dy Hdy].
  rewrite Hdx. destruct (Hrange x y i j Hov) as [Hi Hj].
  destruct (revise_scan_returns domains y i j dx ([], false) dy)
    as [res ->]; [done | | | by eexists _, _].
  - intros w Hw. rewrite (Hnc y dy w); done.
  - intros w Hw. rewrite (Hnc x dx w); done.
Qed.

Lemma filter_arcs_returns queue :
  Forall (fun arc => arc.1 ∈ variables cw /\ arc.2 ∈ variables cw) queue ->
  exists res, filter_arcs cw queue = Ok res.
Proof using Hwf.
  destruct Hwf as (_ & _ & Htotal & _).
  induction 1 as [|arc queue [H1 H2] _ [res IH]]; [by eexists|]. simpl.
  rewrite IH. case_bool_decide as Hne; munfold; [|by eexists].
  unfold getitem. destruct (Htotal _ _ H1 H2 Hne) as [o ->]. by eexists.
Qed.

Lemma initial_arcs_returns : exists queue, initial_arcs cw = Ok queue.
Proof using Hwf.
  apply filter_arcs_returns, Forall_forall. intros [x y] Hin.
  apply list_elem_of_In, in_prod_iff in Hin as [Hx Hy].
  split; by apply list_elem_of_In.
Qed.

Lemma ac3_loop_no_exception fuel queue (domains domains' : Domains) r :
  Forall (proper_arc cw) queue ->
  covers cw domains -> node_consistent domains ->
  ac3_loop cw fuel queue domains = (r, domains') ->
  forall e, r <> Raise e.
Proof using Hwf.
  revert queue domains. induction fuel as [|fuel IH];
    intros queue domains Hq Hc Hnc.
  - destruct queue; simpl; munfold; by intros [= <- <-].
  - destruct queue as [|[x y] queue]; [simpl; munfold; by intros [= <- <-]|].
    apply Forall_cons in Hq as [(Hx & Hy & Hxy) Hq]. simpl in Hx, Hy, Hxy.
    rewrite ac3_loop_cons. simpl.
    destruct (revise_returns x y domains Hx Hy Hxy Hc Hnc)
      as (b & d1 & Hrev).
    pose proof (revise_subdomains cw x y domains) as Hsub.
    rewrite Hrev in *. simpl in Hsub.
    pose proof (subdomains_covers _ _ _ Hsub Hc) as Hc1.
    pose proof (subdomains_node_consistent _ _ Hsub Hnc) as Hnc1.
    destruct b.
    + destruct (Hc1 x Hx) as [dx ->]. case_bool_decide.
      * by intros [= <- <-].
      * apply IH; [|done..].
        apply Forall_app_2; [done | by apply requeue_proper].
    + by apply IH.
Qed.

Lemma ac3_returns (domains : Domains) :
  covers cw domains -> node_consistent domains ->
  exists b domains',
    ac3 cw None domains = (Ok b, domains')
    /\ covers cw domains' /\ node_consistent domains'.
Proof using Hwf.
  intros Hc Hnc. pose proof (ac3_ends cw None domains) as Hends.
  pose proof (ac3_subdomains cw None domains) as Hsub.
  destruct (ac3 cw None domains) as [r d1] eqn:Hac3. simpl in *.
  assert (Hr : forall e, r <> Raise e).
  { rewrite ac3_eq in Hac3. destruct initial_arcs_returns as [queue Hq].
    rewrite Hq in Hac3.
    apply (ac3_loop_no_exception _ _ _ _ _
             (initial_arcs_proper cw queue Hq) Hc Hnc Hac3). }
  destruct r as [b|e|]; [|by destruct (Hr e) | done].
  exists b, d1. split_and!; [done | |].
  - by apply (subdomains_covers _ _ _ Hsub).
  - by apply (subdomains_node_consistent _ _ Hsub).
Qed.

(** *** The search *)

Lemma incomplete_has_unassigned (domains : Domains) (a : Assignment) :
  node_consistent domains -> search_state cw domains a ->
  assignment_complete cw a = false ->
  exists v, v ∈ variables cw /\ v ∉ keys a.
Proof using Hwf.
  destruct Hwf as (_ & _ & _ & Hlen).
  intros Hnc [Hnd Ha] Hc. unfold assignment_complete in Hc.
  apply andb_false_iff in Hc as [Hc|Hc];
    [apply andb_false_iff in Hc as [Hc|Hc]|].
  - exfalso. apply forallb_false_elem in Hc as (v & Hv & Hf).
    apply bool_decide_eq_false_1 in Hf. apply Hf.
    apply keys_elem_of in Hv as [w Hvw]. by apply (Ha v w).
  - apply forallb_false_elem in Hc as (v & Hv & Hf).
    apply bool_decide_eq_false_1 in Hf. by exists v.
  - exfalso. apply forallb_false_elem in Hc as (w & Hw & Hf).
    apply bool_decide_eq_false_1 in Hf. apply Hf. intros ->.
    unfold values in Hw. apply list_elem_of_fmap in Hw as ([v w] & Heq & Hvw).
    simpl in Heq. subst w.
    destruct (Ha v "" Hvw) as (Hv & dv & Hdv & Hin).
    pose proof (Hnc v dv "" Hdv Hin) as Hl. specialize (Hlen v Hv).
    simpl in Hl. lia.
Qed.

Lemma select_returns (domains : Domains) (a : Assignment) :
  covers cw domains -> node_consistent domains ->
  search_state cw domains a ->
  assignment_complete cw a = false ->
  exists var, select_unassigned_variable cw domains a = Ok var.
Proof using Hwf.
  intros Hc Hnc Hst Hinc.
  destruct (incomplete_has_unassigned domains a Hnc Hst Hinc)
    as (u & Hu & Hnin).
  unfold select_unassigned_variable.
  set (unassigned_vars := filter (fun v => v ∉ keys a) (variables cw)).
  assert (Hlen : 0 < length unassigned_vars).
  { assert (u ∈ unassigned_vars) as Hin
      by (by apply list_elem_of_filter).
    destruct unassigned_vars; [by apply elem_of_nil in Hin | simpl; lia]. }
  destruct (for_each_returns
              (fun var => ws ← getitem domains var; Ok (var, length ws))
              unassigned_vars) as [nrv Hnrv].
  { intros v [_ Hv]%list_elem_of_filter. unfold getitem.
    destruct (Hc v Hv) as [ws ->]. by eexists. }
  rewrite Hnrv. munfold.
  pose proof (for_each_length _ _ _ Hnrv) as Hl.
  assert (Hls : length (sorted snd nrv) = length nrv).
  { unfold sorted. by rewrite foldr_insert_by_perm. }
  destruct (sorted snd nrv) as [|e0 [|e1 rest]] eqn:Hs; simpl in Hls;
    [lia | by eexists |].
  simpl. case_bool_decide; [by eexists|].
  set (n_degrees := (fun var => (var, length (neighbors cw var)))
                      <$> unassigned_vars).
  assert (Hld : length (sorted_reverse snd n_degrees)
                = length unassigned_vars).
  { unfold sorted_reverse, n_degrees.
    by rewrite foldr_insert_by_perm, length_fmap. }
  destruct (sorted_reverse snd n_degrees); simpl in Hld; [lia|].
  by eexists.
Qed.

Lemma count_conflicts_returns i j word_var (dn : list string) :
  i < String.length word_var ->
  (forall w, w ∈ dn -> j < String.length w) ->
  exists n, count_conflicts (Some (i, j)) word_var dn = Ok n.
Proof.
  intros Hi. induction dn as [|w dn IH]; intros Hj; [by eexists|].
  simpl. munfold. simpl.
  destruct (char_at_lt i word_var Hi) as [c1 ->].
  destruct (char_at_lt j w) as [c2 ->]; [apply Hj, elem_of_cons; by left|].
  destruct IH as [n ->]; [|by eexists].
  intros w' Hw'. apply Hj, elem_of_cons. by right.
Qed.

Lemma word_weight_returns (domains : Domains) var word_var ns :
  covers cw domains -> node_consistent domains ->
  String.length word_var = Var.length var ->
  (forall n, n ∈ ns -> n ∈ neighbors cw var) ->
  exists m, word_weight cw domains var word_var ns = Ok m.
Proof using Hwf.
  destruct Hwf as (Hsym & Hrange & _ & _).
  intros Hc Hnc Hword. induction ns as [|n ns IH]; intros Hns; [by eexists|].
  assert (Hn : n ∈ neighbors cw var) by (apply Hns, elem_of_cons; by left).
  apply list_elem_of_filter in Hn as [[_ Hdef] Hn].
  apply Is_true_true in Hdef. unfold overlap_defined in Hdef.
  destruct (overlaps cw !! (n, var)) as [[[j i]|]|] eqn:Hov; try done.
  pose proof (Hrange _ _ _ _ Hov) as [Hj Hi]. apply Hsym in Hov.
  simpl. unfold getitem. rewrite Hov. munfold.
  destruct (Hc n Hn) as [dn Hdn]. rewrite Hdn.
  destruct (count_conflicts_returns i j word_var dn) as [k ->]; [lia| |].
  { intros w Hw. rewrite (Hnc n dn w); done. }
  destruct IH as [m ->]; [|by eexists].
  intros n' Hn'. apply Hns, elem_of_cons. by right.
Qed.

Lemma order_domain_values_returns (domains : Domains) var (a : Assignment) :
  covers cw domains -> node_consistent domains -> var ∈ variables cw ->
  exists vals, order_domain_values cw domains var a = Ok vals.
Proof using Hwf.
  intros Hc Hnc Hvar. unfold order_domain_values, getitem.
  destruct (Hc var Hvar) as [dv Hdv]. rewrite Hdv. munfold.
  match goal with
  | |- context [for_each ?f dv] =>
      destruct (for_each_returns f dv) as [ws ->]; [|by eexists]
  end.
  intros w Hw.
  destruct (word_weight_returns domains var w
              (filter (fun n => n ∉ keys a) (neighbors cw var)) Hc Hnc)
    as [m ->]; [by apply (Hnc var dv) | | by eexists].
  intros n [_ Hn]%list_elem_of_filter. done.
Qed.

Lemma search_state_step (domains : Domains) (a : Assignment) var value dv :
  search_state cw domains a ->
  var ∈ variables cw -> var ∉ keys a ->
  domains !! var = Some dv -> value ∈ dv ->
  search_state cw domains (dict_set a var value).
Proof.
  intros [Hnd Ha] Hvar Hnin Hdv Hval. split.
  - rewrite keys_dict_set by done. apply NoDup_app.
    split_and!; [done | | apply NoDup_singleton].
    intros x Hx ->%list_elem_of_singleton. done.
  - rewrite dict_set_absent by done.
    intros v w [Hvw|[= -> ->]%list_elem_of_singleton]%elem_of_app;
      [by apply Ha | eauto].
Qed.

Lemma backtrack_values_no_exception rec var vals dv (s s' : Search) r :
  covers cw s.1 -> node_consistent s.1 -> search_state cw s.1 s.2 ->
  var ∈ variables cw -> var ∉ keys s.2 ->
  s.1 !! var = Some dv -> vals ⊆ dv ->
  (forall s0 s0', rec s0 = (Ok None, s0') -> s0' = s0) ->
  (forall a0 s0' r0,
     search_state cw s.1 a0 -> rec (s.1, a0) = (r0, s0') ->
     forall e, r0 <> Raise e) ->
  backtrack_values cw rec var vals s = (r, s') ->
  forall e, r <> Raise e.
Proof using Hwf.
  destruct Hwf as (Hsym & Hrange & _ & _).
  intros Hc Hnc Hst Hvar Hnin Hdv Hsub Hnone Hrec.
  induction vals as [|value vals IH];
    [simpl; munfold; by intros [= <- <-]|].
  rewrite backtrack_values_cons.
  assert (Hval : value ∈ dv) by (apply Hsub, elem_of_cons; by left).
  assert (Hrest : vals ⊆ dv).
  { intros w Hw. apply Hsub, elem_of_cons. by right. }
  destruct (consistent_returns cw Hsym Hrange (dict_set s.2 var value))
    as [b ->].
  destruct b.
  - destruct (rec (s.1, dict_set s.2 var value)) as [r0 s0'] eqn:Hr.
    pose proof (Hrec _ _ _
                  (search_state_step s.1 s.2 var value dv Hst Hvar Hnin
                     Hdv Hval) Hr) as Hr0.
    destruct r0 as [[r1|]|e0|].
    + by intros [= <- <-].
    + apply Hnone in Hr as ->. simpl. rewrite dict_pop_set by done.
      destruct s. by apply IH.
    + by destruct (Hr0 e0).
    + by intros [= <- <-].
  - rewrite dict_pop_absent by done. destruct s. by apply IH.
Qed.

Lemma backtrack_rec_no_exception fuel (s s' : Search) r :
  covers cw s.1 -> node_consistent s.1 -> search_state cw s.1 s.2 ->
  backtrack_rec cw fuel s = (r, s') ->
  forall e, r <> Raise e.
Proof using Hwf.
  revert s s' r. induction fuel as [|fuel IH]; intros s s' r Hc Hnc Hst;
    [by intros [= <- <-]|].
  rewrite backtrack_rec_S.
  destruct (assignment_complete cw s.2) eqn:Hcomp; [by intros [= <- <-]|].
  destruct (select_returns s.1 s.2 Hc Hnc Hst Hcomp) as [var Hsel].
  rewrite Hsel.
  apply select_unassigned_variable_unassigned in Hsel as [Hvar Hnin].
  destruct (order_domain_values_returns s.1 var s.2 Hc Hnc Hvar)
    as [vals Hord].
  rewrite Hord.
  apply order_domain_values_inv in Hord as (dv & _ & Hdv & Hperm & _).
  apply (backtrack_values_no_exception _ var vals dv); try done.
  - by rewrite Hperm.
  - apply backtrack_rec_None.
  - intros a0 s0' r0 Hst0 Hr. by apply (IH (s.1, a0) s0' r0).
Qed.

Lemma backtrack_returns (domains : Domains) (a : Assignment) :
  covers cw domains -> node_consistent domains ->
  search_state cw domains a ->
  exists res s', backtrack cw (domains, a) = (Ok res, s').
Proof using Hwf.
  intros Hc Hnc Hst. pose proof (backtrack_terminates cw (domains, a)) as Ht.
  destruct (backtrack cw (domains, a)) as [r s'] eqn:Hb.
  rewrite backtrack_eq in Hb.
  pose proof (backtrack_rec_no_exception _ (domains, a) _ _ Hc Hnc Hst Hb)
    as Hr.
  destruct r as [res|e|]; [by eexists _, _ | by destruct (Hr e) | done].
Qed.

Lemma solve_returns (domains : Domains) :
  covers cw domains ->
  exists res domains', solve cw domains = (Ok res, domains').
Proof using Hwf.
  intros Hc. rewrite solve_eq.
  destruct (ac3_returns (enforce_node_consistency domains).2)
    as (b & d1 & -> & Hc1 & Hnc1).
  - by apply (subdomains_covers cw _ domains
                (enforce_node_consistency_subdomains domains)).
  - apply enforce_node_consistency_sound.
  - rewrite backtrack_from_eq.
    destruct (backtrack_returns d1 [] Hc1 Hnc1) as (res & s' & ->).
    + split; [apply NoDup_nil_2 | by intros v w ?%elem_of_nil].
    + by eexists _, _.
Qed.

End well_formed_grid.

(** X18: on a well-formed grid, with a store that has an entry for every slot
    and keeps the length invariant, [revise] on two distinct slots raises
    no exception. *)
Theorem revise_never_raises (cw : Crossword) (x y : Var.t)
    (domains : Domains) :
  well_formed cw ->
  x ∈ variables cw -> y ∈ variables cw -> x <> y ->
  covers cw domains -> node_consistent domains ->
  exists b domains', revise cw x y domains = (Ok b, domains').
Proof. intros Hwf. by apply revise_returns. Qed.

(** X19: under the same conditions [ac3()] raises no exception and leaves a
    store with the same two properties. *)
Theorem ac3_never_raises (cw : Crossword) (domains : Domains) :
  well_formed cw ->
  covers cw domains -> node_consistent domains ->
  exists b domains',
    ac3 cw None domains = (Ok b, domains')
    /\ covers cw domains' /\ node_consistent domains'.
Proof. intros Hwf. by apply ac3_returns. Qed.

(** X20: on a well-formed grid [solve] decides the puzzle: started from a
    store with an entry for every slot, it raises nothing and returns
    either a complete consistent assignment over that store, or [None] when
    there is none. *)
Theorem solve_decides (cw : Crossword) (domains : Domains) :
  well_formed cw -> covers cw domains ->
  exists res domains',
    solve cw domains = (Ok res, domains')
    /\ match res with
       | Some r => solution cw domains r /\ NoDup (keys r)
       | None => forall sol, NoDup (keys sol) -> ~ solution cw domains sol
       end.
Proof.
  intros Hwf Hc. destruct (solve_returns cw Hwf domains Hc) as (res & d' & H).
  exists res, d'. split; [done|]. destruct res as [r|].
  - by destruct (solve_sound_aux _ _ _ _ H) as (? & ? & _).
  - intros sol Hnd Hsol. destruct Hwf as (Hsym & _).
    by apply (solve_complete_aux cw _ _ sol Hsym H).
Qed.

(** ** [letter_grid]: the array it builds *)

Lemma cell_inj variable k k' : cell variable k = cell variable k' -> k = k'.
Proof.
  unfold cell. destruct (Var.direction variable); simpl; intros [= ]; lia.
Qed.

Lemma shape_lookup height width letters i :
  shape height width letters -> i < height ->
  exists row, letters !! i = Some row /\ length row = width.
Proof.
  intros [Hh Hw] Hi. destruct (lookup_lt_is_Some_2 letters i) as [row Hrow];
    [lia|].
  exists row. split; [done|]. by eapply Forall_lookup_1 in Hw.
Qed.

Lemma set_cell_inv height width letters i j c letters' :
  shape height width letters ->
  set_cell letters i j c = Ok letters' ->
  i < height /\ j < width /\ shape height width letters'
  /\ forall i' j',
       get_cell letters' i' j'
       = if decide ((i', j') = (i, j)) then Some (Some c)
         else get_cell letters i' j'.
Proof.
  intros [Hh Hw] H. unfold set_cell, item in H. munfold.
  destruct (letters !! i) as [row|] eqn:Hrow; [|done].
  case_bool_decide as Hj; [|done]. simplify_eq.
  pose proof (lookup_lt_Some _ _ _ Hrow) as Hi.
  assert (Hlen : length row = width) by (by eapply Forall_lookup_1 in Hw).
  split_and!; [done | lia | |].
  - split; [by rewrite length_insert|].
    apply Forall_insert; [done|]. by rewrite length_insert.
  - intros i' j'. unfold get_cell. case_decide as Heq.
    + simplify_eq. rewrite list_lookup_insert_eq by done. simpl.
      by rewrite list_lookup_insert_eq.
    + destruct (decide (i' = i)) as [->|Hi'].
      * rewrite list_lookup_insert_eq, Hrow by done. simpl.
        rewrite list_lookup_insert_ne; [done|]. congruence.
      * by rewrite list_lookup_insert_ne.
Qed.

Lemma set_cell_returns height width letters i j c :
  shape height width letters -> i < height -> j < width ->
  exists letters', set_cell letters i j c = Ok letters'.
Proof.
  intros Hs Hi Hj. destruct (shape_lookup _ _ _ i Hs Hi) as (row & Hrow & Hl).
  unfold set_cell, item. rewrite Hrow. munfold.
  rewrite bool_decide_eq_true_2 by lia. by eexists.
Qed.

Lemma write_word_inv height width variable word ks letters letters' :
  shape height width letters -> NoDup ks ->
  write_word variable word ks letters = Ok letters' ->
  shape height width letters'
  /\ (forall k, k ∈ ks ->
        (cell variable k).1 < height /\ (cell variable k).2 < width
        /\ exists c, String.get k word = Some c
             /\ get_cell letters' (cell variable k).1 (cell variable k).2
                = Some (Some c))
  /\ (forall i j, (forall k, k ∈ ks -> cell variable k <> (i, j)) ->
        get_cell letters' i j = get_cell letters i j).
Proof.
  revert letters. induction ks as [|k ks IH]; intros letters Hs Hnd H.
  - simpl in H. simplify_eq. split_and!; [done | | done].
    by intros k ?%elem_of_nil.
  - simpl in H. munfold. apply NoDup_cons in Hnd as [Hk Hnd].
    destruct (char_at k word) as [c| |] eqn:Hc; [|done..].
    destruct (set_cell letters _ _ c) as [l1| |] eqn:Hset; [|done..].
    apply char_at_Ok in Hc.
    destruct (set_cell_inv _ _ _ _ _ _ _ Hs Hset) as (Hi & Hj & Hs1 & Hget).
    destruct (IH l1 Hs1 Hnd H) as (Hs' & Hcov & Hframe).
    split_and!; [done | |].
    + intros k' [->|Hk']%elem_of_cons; [|by apply Hcov].
      split_and!; [done..|]. exists c. split; [done|].
      rewrite Hframe, Hget.
      * by rewrite decide_True.
      * intros k' Hk' Heq. rewrite <- surjective_pairing in Heq.
        apply cell_inj in Heq. by subst.
    + intros i j Hne. rewrite Hframe, Hget.
      * rewrite decide_False; [done|]. intros Heq.
        apply (Hne k); [apply elem_of_cons; by left|].
        rewrite Heq. apply surjective_pairing.
      * intros k' Hk'. apply Hne, elem_of_cons. by right.
Qed.

Lemma write_word_returns height width variable word ks letters :
  shape height width letters ->
  (forall k, k ∈ ks ->
     k < String.length word
     /\ (cell variable k).1 < height /\ (cell variable k).2 < width) ->
  exists letters', write_word variable word ks letters = Ok letters'.
Proof.
  revert letters. induction ks as [|k ks IH]; intros letters Hs Hin;
    [by eexists|].
  destruct (Hin k) as (Hk & Hi & Hj); [apply elem_of_cons; by left|].
  destruct (char_at_lt k word Hk) as [c Hc].
  destruct (set_cell_returns _ _ _ _ _ c Hs Hi Hj) as [l1 Hset].
  destruct (set_cell_inv _ _ _ _ _ _ _ Hs Hset) as (_ & _ & Hs1 & _).
  cbn [write_word]. rewrite Hc. munfold. rewrite Hset.
  apply IH; [done|]. intros k' Hk'. apply Hin, elem_of_cons. by right.
Qed.

Lemma elem_of_seq_0 k n : k ∈ seq 0 n <-> k < n.
Proof. rewrite elem_of_seq. lia. Qed.

Lemma string_get_Some k (w : string) c :
  String.get k w = Some c -> k < String.length w.
Proof.
  revert k. induction w as [|c' w IH]; intros k; simpl; [by destruct k|].
  destruct k as [|k]; [lia|]. intros H%IH. lia.
Qed.

(** Writing one word: shape kept, the word inside, its cells set, the
    others untouched. *)
Lemma write_entry_inv height width variable word letters letters' :
  shape height width letters ->
  write_word variable word (seq 0 (String.length word)) letters
  = Ok letters' ->
  shape height width letters'
  /\ inside height width variable word
  /\ (forall k c, String.get k word = Some c ->
        get_cell letters' (cell variable k).1 (cell variable k).2
        = Some (Some c))
  /\ (forall i j,
        (forall k, k < String.length word -> cell variable k <> (i, j)) ->
        get_cell letters' i j = get_cell letters i j).
Proof.
  intros Hs H.
  destruct (write_word_inv _ _ _ _ _ _ _ Hs (NoDup_seq _ _) H)
    as (Hs' & Hcov & Hframe).
  split_and!; [done | | |].
  - intros k Hk. destruct (Hcov k) as (? & ? & _); [by apply elem_of_seq_0|].
    done.
  - intros k c Hc. destruct (Hcov k) as (_ & _ & c' & Hc' & Hget).
    { by apply elem_of_seq_0, (string_get_Some _ _ c). }
    by simplify_eq.
  - intros i j Hne. apply Hframe. intros k Hk%elem_of_seq_0. by apply Hne.
Qed.

Lemma write_items_inv height width (items : Assignment) letters letters' :
  shape height width letters ->
  write_items items letters = Ok letters' ->
  shape height width letters'
  /\ (forall v w, (v, w) ∈ items -> inside height width v w)
  /\ (forall i j,
        get_cell letters' i j = get_cell letters i j
        \/ exists v w k c,
             (v, w) ∈ items /\ String.get k w = Some c
             /\ cell v k = (i, j)
             /\ get_cell letters' i j = Some (Some c)).
Proof.
  revert letters. induction items as [|[v0 w0] items IH]; intros letters Hs H.
  - simpl in H. simplify_eq. split_and!; [done | | by left].
    by intros v w ?%elem_of_nil.
  - simpl in H. munfold.
    destruct (write_word v0 w0 _ letters) as [l1| |] eqn:Hw; [|done..].
    destruct (write_entry_inv _ _ _ _ _ _ Hs Hw)
      as (Hs1 & Hin0 & Hcov & Hframe).
    destruct (IH l1 Hs1 H) as (Hs' & Hin & Hprov).
    split_and!; [done | |].
    + intros v w [[= -> ->]|Hvw]%elem_of_cons; [done | by apply Hin].
    + intros i j. destruct (Hprov i j) as [Heq|(v & w & k & c & Hvw & Hc)].
      2:{ right. exists v, w, k, c. split; [|done].
          apply elem_of_cons. by right. }
      rewrite Heq.
      destruct (decide (Exists (fun k => cell v0 k = (i, j))
                          (seq 0 (String.length w0)))) as [Hex|Hnex].
      * apply Exists_exists in Hex as (k & Hk%elem_of_seq_0 & Hcell).
        destruct (string_get_lt k w0 Hk) as [c Hc]. right.
        exists v0, w0, k, c. split_and!; [apply elem_of_cons; by left|..];
          try done.
        rewrite <- (Hcov k c Hc). by rewrite Hcell.
      * left. apply Hframe. intros k Hk Hcell. apply Hnex, Exists_exists.
        exists k. split; [by apply elem_of_seq_0 | done].
Qed.

Lemma write_items_returns height width (items : Assignment) letters :
  shape height width letters ->
  (forall v w, (v, w) ∈ items -> inside height width v w) ->
  exists letters', write_items items letters = Ok letters'.
Proof.
  revert letters. induction items as [|[v0 w0] items IH]; intros letters Hs H;
    [by eexists|].
  simpl.
  destruct (write_word_returns height width v0 w0
              (seq 0 (String.length w0)) letters Hs) as [l1 Hw].
  { intros k Hk%elem_of_seq_0. split; [done|].
    apply (H v0 w0); [apply elem_of_cons; by left | done]. }
  rewrite Hw. munfold.
  destruct (write_entry_inv _ _ _ _ _ _ Hs Hw) as (Hs1 & _).
  apply IH; [done|]. intros v w Hvw. apply H, elem_of_cons. by right.
Qed.

Lemma write_items_shows (items : Assignment) height width letters letters' :
  shape height width letters ->
  write_items items letters = Ok letters' ->
  agree_on_cells items ->
  forall v w k c, (v, w) ∈ items -> String.get k w = Some c ->
    get_cell letters' (cell v k).1 (cell v k).2 = Some (Some c).
Proof.
  revert letters. induction items as [|[v0 w0] items IH];
    intros letters Hs H Hag v w k c Hvw Hc; [by apply elem_of_nil in Hvw|].
  simpl in H. munfold.
  destruct (write_word v0 w0 _ letters) as [l1| |] eqn:Hw; [|done..].
  destruct (write_entry_inv _ _ _ _ _ _ Hs Hw) as (Hs1 & _ & Hcov & _).
  assert (Hag' : agree_on_cells items).
  { intros v1 w1 v2 w2 k1 k2 c1 c2 H1 H2. apply Hag; apply elem_of_cons;
      by right. }
  destruct (write_items_inv _ _ _ _ _ Hs1 H) as (_ & _ & Hprov).
  destruct (Hprov (cell v k).1 (cell v k).2)
    as [Heq|(v' & w' & k' & c' & Hvw' & Hc' & Hcell & Hget)].
  - apply elem_of_cons in Hvw as [[= -> ->]|Hvw].
    + rewrite Heq. by apply Hcov.
    + by apply (IH l1 Hs1 H Hag' v w k c).
  - rewrite Hget. do 2 f_equal.
    apply (Hag v' w' v w k' k c' c); [apply elem_of_cons; by right|..];
      try done.
Qed.

Lemma shape_blank height width :
  shape height width (replicate height (replicate width None)).
Proof.
  split; [apply length_replicate|]. apply Forall_replicate, length_replicate.
Qed.

Lemma get_cell_blank height width i j :
  i < height -> j < width ->
  get_cell (replicate height (replicate width None)) i j = Some None.
Proof.
  intros Hi Hj. unfold get_cell. rewrite lookup_replicate_2 by done. simpl.
  by rewrite lookup_replicate_2.
Qed.

(** X21: [letter_grid] returns an array exactly when every assigned word
    lies inside the grid (otherwise the [IndexError] of the write), and the
    array has [height] rows of [width] cells. *)
Theorem letter_grid_bounds (height width : nat) (a : Assignment) :
  ((exists letters, letter_grid height width a = Ok letters)
   <-> forall v w, (v, w) ∈ a -> inside height width v w)
  /\ (forall letters, letter_grid height width a = Ok letters ->
        shape height width letters).
Proof.
  split; [split|].
  - intros [letters H].
    by destruct (write_items_inv _ _ _ _ _ (shape_blank height width) H)
      as (_ & ? & _).
  - apply write_items_returns, shape_blank.
  - intros letters H.
    by destruct (write_items_inv _ _ _ _ _ (shape_blank height width) H)
      as (? & _).
Qed.

(** X22: every cell of the array [letter_grid] returns is blank or holds a
    letter of an assigned word, at the place of that letter. *)
Theorem letter_grid_cells (height width : nat) (a : Assignment)
    (letters : Letters) (i j : nat) :
  letter_grid height width a = Ok letters ->
  i < height -> j < width ->
  get_cell letters i j = Some None
  \/ exists v w k c,
       (v, w) ∈ a /\ String.get k w = Some c /\ cell v k = (i, j)
       /\ get_cell letters i j = Some (Some c).
Proof.
  intros H Hi Hj.
  destruct (write_items_inv _ _ _ _ _ (shape_blank height width) H)
    as (_ & _ & Hprov).
  destruct (Hprov i j) as [Heq|?]; [left | by right].
  by rewrite Heq, get_cell_blank.
Qed.

(** X23: when the entries that pass through a common cell carry the same
    letter there, the array shows every assigned word, letter by letter
    along its slot. *)
Theorem letter_grid_shows_words (height width : nat) (a : Assignment)
    (letters : Letters) :
  letter_grid height width a = Ok letters ->
  agree_on_cells a ->
  forall v w k c, (v, w) ∈ a -> String.get k w = Some c ->
    get_cell letters (cell v k).1 (cell v k).2 = Some (Some c).
Proof.
  intros H. by apply (write_items_shows a height width _ _
                        (shape_blank height width)).
Qed.

(** ** The theorems at work on the small grid *)

Lemma grid23_overlaps_symmetric c :
  overlaps c = Grid23.overlap_map -> overlaps_symmetric c.
Proof.
  intros Hc x y i j. rewrite Hc. unfold Grid23.overlap_map.
  intros H%elem_of_list_to_map_2.
  repeat (apply elem_of_cons in H as [H|H];
          [simplify_eq; vm_compute; reflexivity |]).
  by apply elem_of_nil in H.
Qed.

Lemma ac3_arc_consistent_witness :
  arc_consistent Grid23.cw (Grid23.pruned Grid23.cw).
Proof.
  apply (ac3_arc_consistent Grid23.cw
           (grid23_overlaps_symmetric Grid23.cw eq_refl)
           (enforce_node_consistency (init_domains Grid23.cw)).2).
  vm_compute. reflexivity.
Defined.

Lemma pruning_sound_witness :
  (ac3 Grid23.blocked None
     (enforce_node_consistency (init_domains Grid23.blocked)).2).1
  = Ok false
  /\ ~ solution Grid23.blocked (init_domains Grid23.blocked) Grid23.filled.
Proof.
  split; [vm_compute; reflexivity |].
  apply (proj1 (pruning_sound Grid23.blocked
                  (grid23_overlaps_symmetric Grid23.blocked eq_refl))
           (init_domains Grid23.blocked)
           (ac3 Grid23.blocked None
              (enforce_node_consistency (init_domains Grid23.blocked)).2).2
           Grid23.filled).
  vm_compute. reflexivity.
Defined.

Lemma backtrack_failure_restores_witness :
  (backtrack Grid23.scarce
     (Grid23.pruned Grid23.scarce, [(Grid23.X, "ANA")])).1 = Ok None
  /\ (backtrack Grid23.scarce
        (Grid23.pruned Grid23.scarce, [(Grid23.X, "ANA")])).2
     = (Grid23.pruned Grid23.scarce, [(Grid23.X, "ANA")]).
Proof.
  split; [vm_compute; reflexivity |].
  apply (backtrack_failure_restores Grid23.scarce
           (Grid23.pruned Grid23.scarce) [(Grid23.X, "ANA")]).
  vm_compute. reflexivity.
Defined.

Lemma length_invariant_witness :
  node_consistent
    (ac3 Grid23.cw None
       (enforce_node_consistency (init_domains Grid23.cw)).2).2.
Proof.
  apply (proj2 (length_invariant Grid23.cw
                  (enforce_node_consistency (init_domains Grid23.cw)).2)).
  apply (proj1 (length_invariant Grid23.cw (init_domains Grid23.cw))).
Defined.

Lemma revise_no_overlap_witness :
  revise Grid23.cw Grid23.P Grid23.Q (init_domains Grid23.cw)
  = (Ok false, init_domains Grid23.cw).
Proof.
  apply (revise_no_overlap Grid23.cw Grid23.P Grid23.Q).
  vm_compute. reflexivity.
Defined.

Lemma backtrack_complete_witness :
  consistent Grid23.cw Grid23.twice_AT = Ok false
  /\ backtrack Grid23.cw (Grid23.pruned Grid23.cw, Grid23.twice_AT)
     = (Ok (Some Grid23.twice_AT),
        (Grid23.pruned Grid23.cw, Grid23.twice_AT)).
Proof.
  split; [vm_compute; reflexivity |].
  apply (backtrack_complete Grid23.cw). vm_compute. reflexivity.
Defined.

Lemma backtrack_result_solved_witness :
  backtrack Grid23.cw (Grid23.pruned Grid23.cw, [])
  = (Ok (Some Grid23.filled), (Grid23.pruned Grid23.cw, Grid23.filled))
  /\ consistent Grid23.cw Grid23.filled = Ok true
  /\ assignment_complete Grid23.cw Grid23.filled = true.
Proof.
  assert (H : backtrack Grid23.cw (Grid23.pruned Grid23.cw, [])
              = (Ok (Some Grid23.filled),
                 (Grid23.pruned Grid23.cw, Grid23.filled)))
    by (vm_compute; reflexivity).
  split; [exact H|].
  apply (backtrack_result_solved Grid23.cw (Grid23.pruned Grid23.cw) []
           Grid23.filled (Grid23.pruned Grid23.cw, Grid23.filled) H).
  right. reflexivity.
Defined.

(** The scenarios of the specification on this grid: a vocabulary that
    fills it, and one with a single word for two slots of its length. *)
Example solve_fills_the_grid :
  (solve Grid23.cw (init_domains Grid23.cw)).1 = Ok (Some Grid23.filled).
Proof. vm_compute. reflexivity. Qed.

Example solve_reports_no_solution :
  (solve Grid23.scarce (init_domains Grid23.scarce)).1 = Ok None.
Proof. vm_compute. reflexivity. Qed.

Example ac3_detects_empty_domain :
  (ac3 Grid23.blocked None
     (enforce_node_consistency (init_domains Grid23.blocked)).2).1
  = Ok false.
Proof. vm_compute. reflexivity. Qed.

(** ** The further theorems on the small grid *)

(** Settles a decidable statement on closed terms by evaluation. *)
Ltac by_compute := apply (bool_decide_unpack _); vm_compute; exact I.

Lemma grid23_offsets_in_range c :
  overlaps c = Grid23.overlap_map -> offsets_in_range c.
Proof.
  intros Hc x y i j. rewrite Hc. unfold Grid23.overlap_map.
  intros H%elem_of_list_to_map_2.
  repeat (apply elem_of_cons in H as [H|H];
          [simplify_eq; vm_compute; lia |]).
  by apply elem_of_nil in H.
Qed.

Lemma grid23_slots (S : Var.t -> Prop) :
  S Grid23.P -> S Grid23.Q -> S Grid23.X ->
  forall v, v ∈ [Grid23.P; Grid23.Q; Grid23.X] -> S v.
Proof.
  intros HP HQ HX v Hv.
  repeat (apply elem_of_cons in Hv as [->|Hv]; [done|]).
  by apply elem_of_nil in Hv.
Qed.

Lemma grid23_well_formed c :
  overlaps c = Grid23.overlap_map ->
  variables c = [Grid23.P; Grid23.Q; Grid23.X] ->
  well_formed c.
Proof.
  intros Hc Hv. split_and!.
  - by apply grid23_overlaps_symmetric.
  - by apply grid23_offsets_in_range.
  - intros x y. rewrite Hv, Hc. revert x.
    apply (grid23_slots (fun x => y ∈ _ -> x <> y -> _)); revert y;
      apply (grid23_slots (fun y => _ <> y -> _)); intros Hne; try done;
      vm_compute; eauto.
  - rewrite Hv. apply (grid23_slots (fun v => 0 < Var.length v));
      vm_compute; lia.
Qed.

Lemma init_domains_covers cw : covers cw (init_domains cw).
Proof.
  intros v Hv. rewrite init_domains_lookup. by rewrite decide_True.
Qed.

Lemma enforce_node_consistency_covers cw domains :
  covers cw domains -> covers cw (enforce_node_consistency domains).2.
Proof.
  apply subdomains_covers, enforce_node_consistency_subdomains.
Qed.

Lemma revise_establishes_arc_witness :
  arc_ok
    (revise Grid23.blocked Grid23.P Grid23.X
       (enforce_node_consistency (init_domains Grid23.blocked)).2).2
    Grid23.P Grid23.X (0, 0).
Proof.
  apply (revise_establishes_arc Grid23.blocked Grid23.P Grid23.X (0, 0)
           (enforce_node_consistency (init_domains Grid23.blocked)).2
           (revise Grid23.blocked Grid23.P Grid23.X
              (enforce_node_consistency (init_domains Grid23.blocked)).2).2
           true).
  - vm_compute. reflexivity.
  - discriminate.
  - vm_compute. reflexivity.
Defined.

Lemma ac3_false_empties_a_domain_witness :
  exists x, Grid23.pruned Grid23.blocked !! x = Some [].
Proof.
  apply (ac3_false_empties_a_domain Grid23.blocked None
           (enforce_node_consistency (init_domains Grid23.blocked)).2).
  vm_compute. reflexivity.
Defined.


Lemma consistent_rejects_repeated_word_witness :
  consistent Grid23.cw Grid23.twice_AT = Ok false.
Proof.
  apply (consistent_rejects_repeated_word Grid23.cw Grid23.twice_AT
           Grid23.P Grid23.Q "AT").
  - by_compute.
  - by_compute.
  - by_compute.
  - discriminate.
Defined.

Lemma consistent_inherited_witness :
  consistent Grid23.cw [(Grid23.X, "ANA"); (Grid23.Q, "AS")] = Ok true.
Proof.
  apply (consistent_inherited Grid23.cw
           [(Grid23.X, "ANA"); (Grid23.Q, "AS")] Grid23.filled).
  - by_compute.
  - by_compute.
  - by_compute.
  - vm_compute. reflexivity.
Defined.



Lemma select_unassigned_variable_fresh_witness :
  Grid23.P ∈ variables Grid23.cw /\ Grid23.P ∉ keys [(Grid23.X, "ANA")].
Proof.
  apply (select_unassigned_variable_fresh Grid23.cw
           (Grid23.pruned Grid23.cw)).
  vm_compute. reflexivity.
Defined.

Lemma select_unassigned_variable_strict_minimum_witness :
  select_unassigned_variable Grid23.cw (Grid23.pruned Grid23.cw)
    [(Grid23.P, "AT")] = Ok Grid23.Q.
Proof.
  apply (select_unassigned_variable_strict_minimum Grid23.cw
           (Grid23.pruned Grid23.cw) [(Grid23.P, "AT")] Grid23.Q
           ["AT"; "AS"]).
  - by_compute.
  - by_compute.
  - by_compute.
  - vm_compute. reflexivity.
  - apply (grid23_slots
             (fun v => v ∉ keys [(Grid23.P, "AT")] -> v <> Grid23.Q ->
                exists dv, Grid23.pruned Grid23.cw !! v = Some dv
                           /\ 2 < length dv)).
    + intros H. destruct H. by_compute.
    + intros _ H. destruct H. reflexivity.
    + intros _ _. exists ["ANA"; "ATA"; "ALA"].
      split; [vm_compute; reflexivity | simpl; lia].
Defined.

Lemma backtrack_full_incomplete_raises_witness :
  backtrack Grid23.cw
    (Grid23.pruned Grid23.cw,
     [(Grid23.P, ""); (Grid23.Q, "AT"); (Grid23.X, "ANA")])
  = (Raise IndexError,
     (Grid23.pruned Grid23.cw,
      [(Grid23.P, ""); (Grid23.Q, "AT"); (Grid23.X, "ANA")])).
Proof.
  apply (backtrack_full_incomplete_raises Grid23.cw).
  - vm_compute. reflexivity.
  - apply (grid23_slots (fun v => v ∈ keys _));
      by_compute.
Defined.

Lemma backtrack_fuel_irrelevant_witness :
  backtrack_rec Grid23.cw 7 (Grid23.pruned Grid23.cw, [])
  = backtrack Grid23.cw (Grid23.pruned Grid23.cw, []).
Proof.
  apply (backtrack_fuel_irrelevant Grid23.cw (Grid23.pruned Grid23.cw, []) 7).
  vm_compute. lia.
Defined.

Lemma backtrack_extends_assignment_witness :
  [(Grid23.X, "ATA")]
  `prefix_of` [(Grid23.X, "ATA"); (Grid23.P, "AT"); (Grid23.Q, "AS")].
Proof.
  apply (backtrack_extends_assignment Grid23.cw (Grid23.pruned Grid23.cw)
           [(Grid23.X, "ATA")]
           [(Grid23.X, "ATA"); (Grid23.P, "AT"); (Grid23.Q, "AS")]
           (Grid23.pruned Grid23.cw,
            [(Grid23.X, "ATA"); (Grid23.P, "AT"); (Grid23.Q, "AS")])).
  vm_compute. reflexivity.
Defined.

Lemma backtrack_exhaustive_witness :
  (backtrack Grid23.scarce (Grid23.pruned Grid23.scarce, [])).1 = Ok None
  /\ ~ solution Grid23.scarce (Grid23.pruned Grid23.scarce) Grid23.twice_AT.
Proof.
  split; [vm_compute; reflexivity |].
  apply (backtrack_exhaustive Grid23.scarce (Grid23.pruned Grid23.scarce)
           [] Grid23.twice_AT (Grid23.pruned Grid23.scarce, [])).
  - vm_compute. reflexivity.
  - by_compute.
  - by_compute.
  - by_compute.
Defined.

Lemma solve_sound_witness :
  solution Grid23.cw (init_domains Grid23.cw) Grid23.filled
  /\ NoDup (keys Grid23.filled).
Proof.
  apply (solve_sound Grid23.cw (init_domains Grid23.cw)
           (Grid23.pruned Grid23.cw)).
  vm_compute. reflexivity.
Defined.

Lemma solve_complete_witness :
  (solve Grid23.scarce (init_domains Grid23.scarce)).1 = Ok None
  /\ ~ solution Grid23.scarce (init_domains Grid23.scarce) Grid23.twice_AT.
Proof.
  split; [vm_compute; reflexivity |].
  apply (solve_complete Grid23.scarce (init_domains Grid23.scarce)
           (Grid23.pruned Grid23.scarce)).
  - apply (grid23_overlaps_symmetric Grid23.scarce). reflexivity.
  - vm_compute. reflexivity.
  - by_compute.
Defined.

Lemma solve_uses_the_vocabulary_witness :
  Grid23.Q ∈ variables Grid23.cw /\ "AS" ∈ words Grid23.cw.
Proof.
  apply (proj2 (solve_uses_the_vocabulary Grid23.cw
                  (Grid23.pruned Grid23.cw) Grid23.filled)).
  - vm_compute. reflexivity.
  - by_compute.
Defined.

Lemma revise_never_raises_witness :
  exists b domains',
    revise Grid23.blocked Grid23.P Grid23.X
      (enforce_node_consistency (init_domains Grid23.blocked)).2
    = (Ok b, domains').
Proof.
  apply (revise_never_raises Grid23.blocked Grid23.P Grid23.X).
  - apply (grid23_well_formed Grid23.blocked); reflexivity.
  - by_compute.
  - by_compute.
  - discriminate.
  - apply enforce_node_consistency_covers, init_domains_covers.
  - apply enforce_node_consistency_sound.
Defined.

Lemma ac3_never_raises_witness :
  exists b domains',
    ac3 Grid23.cw None (enforce_node_consistency (init_domains Grid23.cw)).2
    = (Ok b, domains')
    /\ covers Grid23.cw domains' /\ node_consistent domains'.
Proof.
  apply (ac3_never_raises Grid23.cw).
  - apply (grid23_well_formed Grid23.cw); reflexivity.
  - apply enforce_node_consistency_covers, init_domains_covers.
  - apply enforce_node_consistency_sound.
Defined.

Lemma solve_decides_witness :
  exists res domains',
    solve Grid23.scarce (init_domains Grid23.scarce) = (Ok res, domains')
    /\ match res with
       | Some r =>
           solution Grid23.scarce (init_domains Grid23.scarce) r
           /\ NoDup (keys r)
       | None =>
           forall sol, NoDup (keys sol) ->
             ~ solution Grid23.scarce (init_domains Grid23.scarce) sol
       end.
Proof.
  apply (solve_decides Grid23.scarce (init_domains Grid23.scarce)).
  - apply (grid23_well_formed Grid23.scarce); reflexivity.
  - apply init_domains_covers.
Defined.

Lemma letter_grid_bounds_witness :
  exists letters, letter_grid 2 3 Grid23.filled = Ok letters.
Proof.
  apply (proj1 (letter_grid_bounds 2 3 Grid23.filled)).
  intros v w Hvw k.
  repeat (apply elem_of_cons in Hvw as [Hvw|Hvw];
          [simplify_eq; vm_compute; lia |]).
  by apply elem_of_nil in Hvw.
Defined.

Lemma letter_grid_cells_witness :
  get_cell
    [[Some "A"%char; Some "N"%char; Some "A"%char];
     [Some "T"%char; None; Some "S"%char]] 1 1 = Some None
  \/ exists v w k c,
       (v, w) ∈ Grid23.filled /\ String.get k w = Some c
       /\ cell v k = (1, 1)
       /\ get_cell
            [[Some "A"%char; Some "N"%char; Some "A"%char];
             [Some "T"%char; None; Some "S"%char]] 1 1 = Some (Some c).
Proof.
  apply (letter_grid_cells 2 3 Grid23.filled).
  - vm_compute. reflexivity.
  - lia.
  - lia.
Defined.

Lemma grid23_filled_agree : agree_on_cells Grid23.filled.
Proof.
  intros v1 w1 v2 w2 k1 k2 c1 c2 H1 H2 Hc1 Hc2 Hcell.
  repeat (apply elem_of_cons in H1 as [H1|H1];
          [|try by apply elem_of_nil in H1]);
    repeat (apply elem_of_cons in H2 as [H2|H2];
            [|try by apply elem_of_nil in H2]);
    simplify_eq;
    do 4 (try destruct k1 as [|k1]); try discriminate Hc1;
    do 4 (try destruct k2 as [|k2]); try discriminate Hc2;
    vm_compute in *; congruence.
Qed.

Lemma letter_grid_shows_words_witness :
  get_cell
    [[Some "A"%char; Some "N"%char; Some "A"%char];
     [Some "T"%char; None; Some "S"%char]]
    (cell Grid23.Q 1).1 (cell Grid23.Q 1).2
  = Some (Some "S"%char).
Proof.
  apply (letter_grid_shows_words 2 3 Grid23.filled _ (eq_refl _)
           grid23_filled_agree Grid23.Q "AS" 1 "S"%char).
  - by_compute.
  - reflexivity.
Defined.
